(** * Bond Assessment Tool: the bond-math functions and the chart sampler

    A shallow embedding of [priceBond], [macaulayDuration],
    [modifiedDuration], [yieldToWorstApprox] and of the [computed] memo of
    [BondAssessmentTool] (bond_assessment_tool_react.jsx).

    Numbers.  A JavaScript Number is modelled by an exact rational ([Q]):
    every finite double is a rational, [+ - * /] and [Math.pow] with an
    integer exponent are the exact field operations, and [Math.round],
    [Math.max], [Math.min] are exact on such values.  Rounding error,
    overflow, infinities and NaN are outside this model; where the source
    divides, the model agrees with it as long as the divisor is not zero
    ([Q] totalises [x / 0] as [0], JavaScript yields an infinity or NaN):
    the theorems on the value of a price or a duration carry hypotheses
    that keep [freq] and [1 + ytm/freq] away from zero, the others relate
    two runs of the same operations.  [freq], the
    number of coupon payments per year, is an integer ([Z]): the component
    offers 1, 2, 4 and 12, and it is used as exponent of [Math.pow]. *)

From Stdlib Require Import QArith Qminmax Qround Qpower.
From Stdlib Require Import ZArith List Bool Lia Lqa String.
Import ListNotations.

Local Open Scope Q_scope.

(** ** JavaScript primitives *)

Module Js.

(** [Math.round x]: the integer nearest to [x], ties towards plus infinity. *)
Definition Math_round (x : Q) : Z := Qfloor (x + (1 # 2)).

Definition Math_max (a b : Q) : Q := Qmax a b.
Definition Math_min (a b : Q) : Q := Qmin a b.

(** [Math.pow b e] for an integer exponent [e]. *)
Definition Math_pow (b : Q) (e : Z) : Q := b ^ e.

(** [a > b] on Numbers. *)
Definition gt (a b : Q) : bool := negb (Qle_bool a b).

(** The values taken by the variable of
    [for (let i = first; i <= last; i += step)], in order ([0 < step]). *)
Definition for_indices (first last step : Z) : list Z :=
  if (first <=? last)%Z
  then map (fun k => (first + step * Z.of_nat k)%Z)
           (seq 0 (Z.to_nat ((last - first) / step + 1)))
  else [].

(** [for (let i = first; i <= last; i += step) s = body i s]. *)
Definition for_loop {St : Type} (first last step : Z)
    (body : Z -> St -> St) (s : St) : St :=
  fold_left (fun acc i => body i acc) (for_indices first last step) s.

(** [for (let i = first; i < bound; i += step) s = body i s], for integers. *)
Definition for_loop_lt {St : Type} (first bound step : Z)
    (body : Z -> St -> St) (s : St) : St :=
  for_loop first (bound - 1) step body s.

(** A destructuring default, [{ x = d }]: [d] when the property is absent. *)
Definition dflt {A : Type} (d : A) (o : option A) : A :=
  match o with Some v => v | None => d end.

End Js.

Import Js.

(** ** Arguments objects *)

Module BondArgs.

(** The object passed to the bond-math functions.  A property that the
    caller leaves out is [None]. *)
Record Args : Type := mkArgs {
  face       : option Q;
  couponRate : option Q;
  ytm        : option Q;
  years      : option Q;
  freq       : option Z;
  callable   : option bool;
  callYears  : option Q;
  callPrice  : option Q
}.

End BondArgs.

Import BondArgs.

(** [{ face, couponRate, ytm, years, freq }] *)
Definition baseArgs (face couponRate ytm years : Q) (freq : Z) : Args :=
  mkArgs (Some face) (Some couponRate) (Some ytm) (Some years) (Some freq)
         None None None.

(** [{ face, couponRate, ytm, years, freq, callable, callYears, callPrice }] *)
Definition callArgs (face couponRate ytm years : Q) (freq : Z)
    (callable : bool) (callYears callPrice : Q) : Args :=
  mkArgs (Some face) (Some couponRate) (Some ytm) (Some years) (Some freq)
         (Some callable) (Some callYears) (Some callPrice).

(** ** Utility functions *)

(** [Math.max(1, Math.round(years * freq))] *)
Definition periods (years : Q) (freq : Z) : Z :=
  Z.max 1 (Math_round (years * inject_Z freq)).

(** The loop [for (let t = 1; t <= n; t++) pv += c / Math.pow(1 + r, t)]
    started from [pv0]. *)
Definition pvLoop (c r : Q) (n : Z) (pv0 : Q) : Q :=
  for_loop 1 n 1 (fun t pv => pv + c / Math_pow (1 + r) t) pv0.

Definition priceBond (a : Args) : Q :=
  let face := dflt 1000 (face a) in
  let couponRate := dflt (5 # 100) (couponRate a) in
  let ytm := dflt (5 # 100) (ytm a) in
  let years := dflt 10 (years a) in
  let freq := dflt 2%Z (freq a) in
  let n := periods years freq in
  let c := (couponRate * face) / inject_Z freq in
  let r := ytm / inject_Z freq in
  let pvCoupons := pvLoop c r n 0 in
  let pvFace := face / Math_pow (1 + r) n in
  pvCoupons + pvFace.

Definition macaulayDuration (a : Args) : Q :=
  let face := dflt 1000 (face a) in
  let couponRate := dflt (5 # 100) (couponRate a) in
  let ytm := dflt (5 # 100) (ytm a) in
  let years := dflt 10 (years a) in
  let freq := dflt 2%Z (freq a) in
  let n := periods years freq in
  let c := (couponRate * face) / inject_Z freq in
  let r := ytm / inject_Z freq in
  let price := priceBond (baseArgs face couponRate ytm years freq) in
  let num :=
    for_loop 1 n 1
      (fun t num =>
         let tYears := inject_Z t / inject_Z freq in
         let cf := if (t =? n)%Z then c + face else c in
         num + (tYears * cf) / Math_pow (1 + r) t)
      0 in
  let dur := num / price in
  dur.

(** [modifiedDuration] reads [args.ytm] and [args.freq] without defaults:
    with either property absent the quotient is NaN, here [None]. *)
Definition modifiedDuration (args : Args) : option Q :=
  let Dmac := macaulayDuration args in
  match ytm args, freq args with
  | Some ytm, Some freq =>
      let r := ytm / inject_Z freq in
      Some (Dmac / (1 + r))
  | _, _ => None
  end.

(** One iteration of the search loop of [yieldToWorstApprox] on the
    bounds [(lo, hi)]. *)
Definition bisectStep (c callPrice target : Q) (n : Z) (b : Q * Q) : Q * Q :=
  let '(lo, hi) := b in
  let mid := (lo + hi) / 2 in
  let r := mid in
  let pv := pvLoop c r n 0 in
  let pv := pv + callPrice / Math_pow (1 + r) n in
  if gt pv target then (mid, hi) else (lo, mid).

Definition yieldToWorstApprox (a : Args) : Q :=
  let face := dflt 1000 (face a) in
  let couponRate := dflt (5 # 100) (couponRate a) in
  let ytm := dflt (5 # 100) (ytm a) in
  let years := dflt 10 (years a) in
  let freq := dflt 2%Z (freq a) in
  let callable := dflt false (callable a) in
  let callYears := dflt 5 (callYears a) in
  let callPrice := dflt 1000 (callPrice a) in
  if negb callable then ytm else
  let marketPrice := priceBond (baseArgs face couponRate ytm years freq) in
  let n := periods callYears freq in
  let c := (couponRate * face) / inject_Z freq in
  let target := marketPrice in
  let '(lo, hi) :=
    for_loop_lt 0 60 1 (fun iter b => bisectStep c callPrice target n b)
                (- (99 # 100), 1) in
  let rMid := (lo + hi) / 2 in
  let ytc := Math_max (- (99 # 100)) (Math_pow (1 + rMid) freq - 1) in
  Math_min ytm ytc.

(** ** The component state and its [computed] memo *)

Record State : Type := mkState {
  s_face        : Q;
  couponPct     : Q;
  ytmPct        : Q;
  s_years       : Q;
  s_freq        : Z;
  bondType      : string;
  s_callable    : bool;
  putable       : bool;
  sinking       : bool;
  convertible   : bool
}.

(** An element of [points]: [{ yld, Price, "Price (Callable est)" }]. *)
Record Point : Type := mkPoint {
  yld           : Q;
  Price         : Q;
  PriceCallable : Q
}.

Record Computed : Type := mkComputed {
  price  : Q;
  Dmac   : Q;
  Dmod   : option Q;
  cy     : Q;
  ytw    : Q;
  points : list Point
}.

(** [Math.min(years, Math.max(2, Math.round(years / 2)))] *)
Definition midCallYears (years : Q) : Q :=
  Math_min years (Math_max 2 (inject_Z (Math_round (years / 2)))).

(** [Math.max(0.0001, ytm + bps / 10000)] *)
Definition gridYield (ytm : Q) (bps : Z) : Q :=
  Math_max (1 # 10000) (ytm + inject_Z bps / 10000).

(** The yield-to-worst of the grid point at offset [bps]. *)
Definition ytwGrid (face couponRate ytm years : Q) (freq : Z)
    (callable : bool) (bps : Z) : Q :=
  let y := gridYield ytm bps in
  yieldToWorstApprox
    (callArgs face couponRate y years freq callable (midCallYears years) face).

(** The body of the loop over [bps]: the point pushed on [points]. *)
Definition gridPoint (face couponRate ytm years : Q) (freq : Z)
    (callable : bool) (bps : Z) : Point :=
  let y := gridYield ytm bps in
  let p := priceBond (baseArgs face couponRate y years freq) in
  let pCallable :=
    if callable
    then priceBond (baseArgs face couponRate
                      (ytwGrid face couponRate ytm years freq callable bps)
                      years freq)
    else p in
  mkPoint (y * 100) p pCallable.

Definition gridPoints (face couponRate ytm years : Q) (freq : Z)
    (callable : bool) : list Point :=
  for_loop (-200) 200 10
    (fun bps points =>
       points ++ [gridPoint face couponRate ytm years freq callable bps])
    [].

(** The function given to [useMemo]; it is re-run whenever one of [face],
    [couponPct], [ytmPct], [years], [freq], [callable] changes, and these
    are the only state variables it reads. *)
Definition computed (s : State) : Computed :=
  let face := s_face s in
  let years := s_years s in
  let freq := s_freq s in
  let callable := s_callable s in
  let couponRate := couponPct s / 100 in
  let ytm := ytmPct s / 100 in
  let baseArgs := baseArgs face couponRate ytm years freq in
  let price := priceBond baseArgs in
  let Dmac := macaulayDuration baseArgs in
  let Dmod := modifiedDuration baseArgs in
  let cy := (couponRate * face) / price in
  let ytw :=
    yieldToWorstApprox
      (callArgs face couponRate ytm years freq callable
                (midCallYears years) face) in
  let points := gridPoints face couponRate ytm years freq callable in
  mkComputed price Dmac Dmod cy ytw points.

(** The [ytm] properties of the objects handed to [priceBond] while the
    point at offset [bps] is built: the call for [p], and when [callable]
    the call inside [yieldToWorstApprox] and the call for [pCallable]. *)
Definition samplerPriceBondYtms (face couponRate ytm years : Q) (freq : Z)
    (callable : bool) (bps : Z) : list Q :=
  let y := gridYield ytm bps in
  y :: (if callable
        then [y; ytwGrid face couponRate ytm years freq callable bps]
        else []).

(** ** Memoisation

    [useMemo(fn, [face, couponPct, ytmPct, years, freq, callable])] keeps the
    value of the previous render while every dependency is the same value
    as before, and calls [fn] again otherwise. *)

Definition Deps : Type := (Q * Q * Q * Q * Z * bool)%type.

Definition depsOf (s : State) : Deps :=
  (s_face s, couponPct s, ytmPct s, s_years s, s_freq s, s_callable s).

(** The memo cell of the hook: the dependencies and the value of the render
    that last computed it. *)
Record Memo : Type := mkMemo {
  memoDeps  : Deps;
  memoValue : Computed
}.

(** [Object.is] on two Numbers of the model. *)
Definition sameNumber (a b : Q) : bool :=
  (Qnum a =? Qnum b)%Z && (Qden a =? Qden b)%positive.

Definition sameDeps (d1 d2 : Deps) : bool :=
  let '(f1, c1, y1, n1, q1, b1) := d1 in
  let '(f2, c2, y2, n2, q2, b2) := d2 in
  sameNumber f1 f2 && sameNumber c1 c2 && sameNumber y1 y2
  && sameNumber n1 n2 && (q1 =? q2)%Z && Bool.eqb b1 b2.

Definition useMemo (prev : option Memo) (fn : unit -> Computed) (deps : Deps)
    : Memo :=
  match prev with
  | Some m => if sameDeps (memoDeps m) deps then m else mkMemo deps (fn tt)
  | None => mkMemo deps (fn tt)
  end.

(** One render of the component: the memo cell it leaves behind. *)
Definition render (prev : option Memo) (s : State) : Memo :=
  useMemo prev (fun _ => computed s) (depsOf s).

(** The memo cell after the renders of the states [ss], in order. *)
Definition renders (ss : list State) : option Memo :=
  fold_left (fun cell s => Some (render cell s)) ss None.

(** A memo cell holds the value of [fn] for the dependencies it records. *)
Definition memoOk (cell : option Memo) : Prop :=
  match cell with
  | None => True
  | Some m => exists s, depsOf s = memoDeps m /\ memoValue m = computed s
  end.

(** ** Evaluation in lowest terms

    The search loop of [yieldToWorstApprox] with every intermediate fraction
    reduced to lowest terms.  It computes the same numbers (lemma
    [yieldToWorstApprox_reduced]) and is what is run on concrete inputs: sixty
    unreduced midpoints have denominators too large to compute with. *)

Definition pvLoopRed (c r : Q) (n : Z) (pv0 : Q) : Q :=
  for_loop 1 n 1 (fun t pv => Qred (pv + c / Math_pow (1 + r) t)) pv0.

Definition bisectStepRed (c callPrice target : Q) (n : Z) (b : Q * Q) : Q * Q :=
  let '(lo, hi) := b in
  let mid := Qred ((lo + hi) / 2) in
  let pv := pvLoopRed c mid n 0 in
  let pv := Qred (pv + callPrice / Math_pow (1 + mid) n) in
  if gt pv target then (mid, hi) else (lo, mid).

(** Two pairs of bounds that denote the same numbers. *)
Definition boundsEq (b b' : Q * Q) : Prop :=
  fst b == fst b' /\ snd b == snd b'.

Definition yieldToWorstApproxRed (face couponRate ytm years : Q) (freq : Z)
    (callYears callPrice : Q) : Q :=
  let marketPrice := Qred (priceBond (baseArgs face couponRate ytm years freq)) in
  let n := periods callYears freq in
  let c := Qred ((couponRate * face) / inject_Z freq) in
  let '(lo, hi) :=
    Nat.iter 60 (bisectStepRed c callPrice marketPrice n) (- (99 # 100), 1) in
  let rMid := (lo + hi) / 2 in
  let ytc := Math_max (- (99 # 100)) (Math_pow (1 + rMid) freq - 1) in
  Math_min ytm ytc.

(** ** Statements of the specification *)

Module Spec.

(** [sum over t = 1..n of f t], added in increasing order of [t]. *)
Fixpoint sumFrom1 (f : nat -> Q) (n : nat) : Q :=
  match n with
  | O => 0
  | S k => sumFrom1 f k + f (S k)
  end.

(** The present value of [k] coupons and of a redemption [F] at period [k],
    at the per-period rate [r]. *)
Definition pvAt (c F r : Q) (k : nat) : Q :=
  sumFrom1 (fun t => c / (1 + r) ^ Z.of_nat t) k + F / (1 + r) ^ Z.of_nat k.

(** Section 4.1: the coupons discounted by [(1+r)^t] for [t = 1..n], plus the
    face value discounted by [(1+r)^n], with [n = max(1, round(years*freq))],
    [c = couponRate*face/freq] and [r = ytm/freq]. *)
Definition priceBond_spec (face couponRate ytm years : Q) (freq : Z) : Q :=
  let n := Z.to_nat (Z.max 1 (Math_round (years * inject_Z freq))) in
  let c := couponRate * face / inject_Z freq in
  let r := ytm / inject_Z freq in
  pvAt c face r n.

(** Section 4.5, step 3: one bisection step on the bounds [(lo, hi)].  When
    the present value at the midpoint exceeds [target] the lower bound moves
    up to the midpoint, otherwise the upper bound moves down to it. *)
Definition bisect_spec (pv : Q -> Q) (target : Q) (b : Q * Q) : Q * Q :=
  let mid := (fst b + snd b) / 2 in
  if Qlt_le_dec target (pv mid) then (mid, snd b) else (fst b, mid).

(** Section 4.5: the per-period rate left after exactly 60 bisection steps
    from the bounds [-0.99] and [1.0], for the present value of the coupons
    to the call date plus the discounted call price, against the price at
    full maturity. *)
Definition callRate_spec (face couponRate ytm years : Q) (freq : Z)
    (callYears callPrice : Q) : Q :=
  let marketPrice := priceBond_spec face couponRate ytm years freq in
  let n := Z.to_nat (Z.max 1 (Math_round (callYears * inject_Z freq))) in
  let c := couponRate * face / inject_Z freq in
  let b := Nat.iter 60 (bisect_spec (fun r => pvAt c callPrice r n) marketPrice)
                    (- (99 # 100), 1) in
  (fst b + snd b) / 2.

(** Section 4.5, steps 4 and 5. *)
Definition yieldToWorst_spec (face couponRate ytm years : Q) (freq : Z)
    (callable : bool) (callYears callPrice : Q) : Q :=
  if callable
  then
    let r := callRate_spec face couponRate ytm years freq callYears callPrice in
    let ytc := Qmax (- (99 # 100)) ((1 + r) ^ freq - 1) in
    Qmin ytm ytc
  else ytm.

(** The offsets of section 4.6: from -200 to +200 basis points in steps of
    10; [offsetAt i] is the offset of the sample of index [i]. *)
Definition offsetAt (i : nat) : Z := (-200 + 10 * Z.of_nat i)%Z.

(** Section 8, on the sequence of sampled yields. *)
Definition increasing (l : list Q) : Prop :=
  forall i j, (i < j < List.length l)%nat -> nth i l 0 < nth j l 0.

Definition nondecreasing (l : list Q) : Prop :=
  forall i j, (i <= j < List.length l)%nat -> nth i l 0 <= nth j l 0.

Definition symmetricAround (m : Q) (l : list Q) : Prop :=
  forall i, (i < List.length l)%nat ->
            nth i l 0 + nth (List.length l - 1 - i) l 0 == 2 * m.

(** Two states of the component that differ at most in the Putable,
    Sinking Fund and Convertible checkboxes. *)
Definition sameButProvisions (s1 s2 : State) : Prop :=
  s_face s1 = s_face s2 /\ couponPct s1 = couponPct s2
  /\ ytmPct s1 = ytmPct s2 /\ s_years s1 = s_years s2
  /\ s_freq s1 = s_freq s2 /\ bondType s1 = bondType s2
  /\ s_callable s1 = s_callable s2.

End Spec.

Import Spec.

(** ** Loops *)

Section Loops.

Context {St : Type}.
Variable body : Z -> St -> St.

Lemma for_loop_empty (first last step : Z) (s : St) :
  (last < first)%Z -> for_loop first last step body s = s.
Proof.
  intros H. unfold for_loop, for_indices.
  destruct (Z.leb_spec first last); [lia | reflexivity].
Qed.

Lemma for_indices_from_1 (k : nat) :
  for_indices 1 (Z.of_nat k) 1 = map (fun i => Z.of_nat (S i)) (seq 0 k).
Proof.
  unfold for_indices. destruct (Z.leb_spec 1 (Z.of_nat k)) as [H | H].
  - rewrite Z.div_1_r.
    replace (Z.to_nat (Z.of_nat k - 1 + 1)) with k by lia.
    apply map_ext. intros i. lia.
  - destruct k; [reflexivity | lia].
Qed.

Lemma for_loop_from_1_succ (k : nat) (s : St) :
  for_loop 1 (Z.of_nat (S k)) 1 body s
  = body (Z.of_nat (S k)) (for_loop 1 (Z.of_nat k) 1 body s).
Proof.
  unfold for_loop. rewrite !for_indices_from_1.
  rewrite seq_S, map_app, fold_left_app. reflexivity.
Qed.

Lemma for_loop_from_1_zero (s : St) : for_loop 1 0 1 body s = s.
Proof. apply for_loop_empty. lia. Qed.

End Loops.

Lemma periods_pos (years : Q) (freq : Z) : (1 <= periods years freq)%Z.
Proof. unfold periods. lia. Qed.

Lemma periods_nat (years : Q) (freq : Z) :
  Z.of_nat (Z.to_nat (periods years freq)) = periods years freq.
Proof. pose proof (periods_pos years freq). lia. Qed.

(** [Math.round] rounds halves up: [Math.round(2.5)] is 3 and
    [Math.round(-2.5)] is -2. *)
Example Math_round_halves :
  Math_round (5 # 2) = 3%Z /\ Math_round (- (5 # 2)) = (-2)%Z
  /\ Math_round (1 # 4) = 0%Z /\ Math_round 6 = 6%Z.
Proof. repeat split. Qed.

(** [Math.round] returns a nearest integer. *)
Lemma Math_round_nearest (x : Q) :
  x - (1 # 2) < inject_Z (Math_round x) /\ inject_Z (Math_round x) <= x + (1 # 2).
Proof.
  unfold Math_round. split.
  - pose proof (Qlt_floor (x + (1 # 2))) as H.
    rewrite inject_Z_plus in H. change (inject_Z 1) with 1 in H. lra.
  - apply Qfloor_le.
Qed.

(** The coupon loop is the sum of the discounted coupons. *)
Lemma pvLoop_sum (c r : Q) (k : nat) :
  pvLoop c r (Z.of_nat k) 0 = sumFrom1 (fun t => c / (1 + r) ^ Z.of_nat t) k.
Proof.
  unfold pvLoop. induction k as [| k IH].
  - apply for_loop_from_1_zero.
  - rewrite for_loop_from_1_succ, IH. reflexivity.
Qed.

Lemma priceBond_unfold (face couponRate ytm years : Q) (freq : Z) :
  priceBond (baseArgs face couponRate ytm years freq)
  = priceBond_spec face couponRate ytm years freq.
Proof.
  unfold priceBond, priceBond_spec, baseArgs, dflt; cbn [BondArgs.face
    BondArgs.couponRate BondArgs.ytm BondArgs.years BondArgs.freq].
  fold (periods years freq). unfold pvAt.
  rewrite <- (periods_nat years freq) at 1 2.
  rewrite pvLoop_sum. reflexivity.
Qed.

(** ** Pricing *)



(** ** Powers and sums of discounted cash flows *)

Lemma Qpower_nat_succ (x : Q) (k : nat) :
  x ^ Z.of_nat (S k) == x ^ Z.of_nat k * x.
Proof.
  rewrite Nat2Z.inj_succ. unfold Z.succ.
  rewrite Qpower_plus' by lia. reflexivity.
Qed.

Lemma Qpower_nat_pos (x : Q) (k : nat) : 0 < x -> 0 < x ^ Z.of_nat k.
Proof. intros H. apply Qpower_0_lt. exact H. Qed.

Lemma Qpower_nat_ge_1 (x : Q) (k : nat) : 1 <= x -> 1 <= x ^ Z.of_nat k.
Proof.
  intros H. induction k as [| k IH].
  - discriminate.
  - rewrite Qpower_nat_succ. nra.
Qed.

(** The power is increasing in its base from the first power on. *)
Lemma Qpower_nat_lt_base (a b : Q) (k : nat) :
  0 < a -> a < b -> a ^ Z.of_nat (S k) < b ^ Z.of_nat (S k).
Proof.
  intros Ha Hab. induction k as [| k IH].
  - change (a ^ Z.of_nat 1) with a. change (b ^ Z.of_nat 1) with b. exact Hab.
  - rewrite (Qpower_nat_succ a (S k)), (Qpower_nat_succ b (S k)).
    pose proof (Qpower_nat_pos a (S k) Ha). nra.
Qed.

Lemma Qdiv_le_denominator (c a b : Q) :
  0 <= c -> 0 < a -> a <= b -> c / b <= c / a.
Proof.
  intros Hc Ha Hab.
  apply Qle_shift_div_l; [lra |].
  assert (E : c / b * a == c * (a / b)) by (field; lra).
  rewrite E.
  assert (a / b <= 1) by (apply Qle_shift_div_r; lra).
  nra.
Qed.

Lemma Qdiv_lt_denominator (c a b : Q) :
  0 < c -> 0 < a -> a < b -> c / b < c / a.
Proof.
  intros Hc Ha Hab.
  apply Qlt_shift_div_l; [lra |].
  assert (E : c / b * a == c * (a / b)) by (field; lra).
  rewrite E.
  assert (a / b < 1) by (apply Qlt_shift_div_r; lra).
  nra.
Qed.

Lemma sumFrom1_ext (f g : nat -> Q) (k : nat) :
  (forall t, f t == g t) -> sumFrom1 f k == sumFrom1 g k.
Proof.
  intros H. induction k as [| k IH]; cbn [sumFrom1].
  - reflexivity.
  - rewrite IH, (H (S k)). reflexivity.
Qed.

Lemma sumFrom1_le (f g : nat -> Q) (k : nat) :
  (forall t, (1 <= t <= k)%nat -> f t <= g t) -> sumFrom1 f k <= sumFrom1 g k.
Proof.
  induction k as [| k IH]; intros H; cbn [sumFrom1].
  - lra.
  - assert (sumFrom1 f k <= sumFrom1 g k) by (apply IH; intros; apply H; lia).
    assert (f (S k) <= g (S k)) by (apply H; lia).
    lra.
Qed.

Lemma sumFrom1_nonneg (f : nat -> Q) (k : nat) :
  (forall t, (1 <= t <= k)%nat -> 0 <= f t) -> 0 <= sumFrom1 f k.
Proof.
  induction k as [| k IH]; intros H; cbn [sumFrom1].
  - lra.
  - assert (0 <= sumFrom1 f k) by (apply IH; intros; apply H; lia).
    assert (0 <= f (S k)) by (apply H; lia).
    lra.
Qed.

(** Coupons at the discount rate: the present value is the redemption. *)
Lemma pvAt_par (F r : Q) (k : nat) : 0 <= r -> pvAt (r * F) F r k == F.
Proof.
  intros Hr. unfold pvAt. induction k as [| k IH].
  - cbn [sumFrom1]. change ((1 + r) ^ Z.of_nat 0) with 1. field.
  - cbn [sumFrom1]. rewrite <- IH at 3.
    rewrite Qpower_nat_succ.
    pose proof (Qpower_nat_pos (1 + r) k) as Hp.
    field. split; lra.
Qed.

(** The present value decreases as the rate rises. *)
Lemma pvAt_decreasing (c F r1 r2 : Q) (k : nat) :
  0 <= c -> 0 < F -> 0 < 1 + r1 -> r1 < r2 ->
  pvAt c F r2 (S k) < pvAt c F r1 (S k).
Proof.
  intros Hc HF Hr1 Hr. unfold pvAt.
  assert (Hs : sumFrom1 (fun t => c / (1 + r2) ^ Z.of_nat t) (S k)
               <= sumFrom1 (fun t => c / (1 + r1) ^ Z.of_nat t) (S k)).
  { apply sumFrom1_le. intros t Ht.
    destruct t as [| t]; [lia |].
    apply Qdiv_le_denominator; [exact Hc | apply Qpower_nat_pos; lra |].
    apply Qlt_le_weak, Qpower_nat_lt_base; lra. }
  assert (Hf : F / (1 + r2) ^ Z.of_nat (S k) < F / (1 + r1) ^ Z.of_nat (S k)).
  { apply Qdiv_lt_denominator; [exact HF | apply Qpower_nat_pos; lra |].
    apply Qpower_nat_lt_base; lra. }
  lra.
Qed.

Lemma priceBond_pvAt (face couponRate ytm years : Q) (freq : Z) :
  priceBond (baseArgs face couponRate ytm years freq)
  = pvAt (couponRate * face / inject_Z freq) face (ytm / inject_Z freq)
         (Z.to_nat (periods years freq)).
Proof. rewrite priceBond_unfold. reflexivity. Qed.

Lemma periods_succ (years : Q) (freq : Z) :
  exists k, Z.to_nat (periods years freq) = S k.
Proof.
  pose proof (periods_pos years freq).
  exists (Nat.pred (Z.to_nat (periods years freq))). lia.
Qed.

Lemma inject_Z_pos (z : Z) : (1 <= z)%Z -> 1 <= inject_Z z.
Proof. intros H. change 1 with (inject_Z 1). rewrite <- Zle_Qle. exact H. Qed.

Lemma pvAt_coupon_ext (c c' F r : Q) (k : nat) :
  c == c' -> pvAt c F r k == pvAt c' F r k.
Proof.
  intros H. unfold pvAt.
  rewrite (sumFrom1_ext (fun t => c / (1 + r) ^ Z.of_nat t)
                        (fun t => c' / (1 + r) ^ Z.of_nat t)).
  - reflexivity.
  - intros t. rewrite H. reflexivity.
Qed.

(** C5.  For fixed [face > 0], [couponRate >= 0], [years > 0] and
    [freq >= 1], [priceBond] is strictly decreasing in [ytm] on [ytm >= 0]:
    a higher yield gives a strictly lower price (and a lower yield a strictly
    higher one); for face 1000, coupon rate 0.05, 10 years, 2 payments a year
    the price at yield 0.06 is below 1000 and the price at 0.04 above 1000. *)
Theorem priceBond_decreasing_in_ytm
    (face couponRate years : Q) (freq : Z) (ytm1 ytm2 : Q) :
  0 < face -> 0 <= couponRate -> 0 < years -> (1 <= freq)%Z ->
  0 <= ytm1 -> ytm1 < ytm2 ->
  priceBond (baseArgs face couponRate ytm2 years freq)
    < priceBond (baseArgs face couponRate ytm1 years freq)
  /\ priceBond (baseArgs 1000 (5 # 100) (6 # 100) 10 2) < 1000
  /\ 1000 < priceBond (baseArgs 1000 (5 # 100) (4 # 100) 10 2).
Proof.
  intros Hface Hcoupon Hyears Hfreq Hy1 Hy.
  split; [| split; reflexivity].
  rewrite !priceBond_pvAt.
  destruct (periods_succ years freq) as [k ->].
  pose proof (inject_Z_pos freq Hfreq) as Hf.
  assert (Hr1 : 0 <= ytm1 / inject_Z freq)
    by (apply Qle_shift_div_l; lra).
  apply pvAt_decreasing.
  - apply Qle_shift_div_l; [lra |]. nra.
  - exact Hface.
  - lra.
  - apply Qlt_shift_div_l; [lra |].
    assert (E : ytm1 / inject_Z freq * inject_Z freq == ytm1) by (field; lra).
    rewrite E. exact Hy.
Qed.

Lemma priceBond_decreasing_in_ytm_witness :
  (0 < 1000 /\ 0 <= 5 # 100 /\ 0 < 10 /\ (1 <= 2)%Z
   /\ 0 <= 5 # 100 /\ 5 # 100 < 6 # 100)
  /\ priceBond (baseArgs 1000 (5 # 100) (6 # 100) 10 2)
     < priceBond (baseArgs 1000 (5 # 100) (5 # 100) 10 2).
Proof.
  assert (Hface : 0 < 1000) by reflexivity.
  assert (Hcoupon : 0 <= 5 # 100) by discriminate.
  assert (Hyears : 0 < 10) by reflexivity.
  assert (Hfreq : (1 <= 2)%Z) by lia.
  assert (Hlt : 5 # 100 < 6 # 100) by reflexivity.
  split; [repeat split; assumption |].
  exact (proj1 (priceBond_decreasing_in_ytm 1000 (5 # 100) 10 2 (5 # 100)
                  (6 # 100) Hface Hcoupon Hyears Hfreq Hcoupon Hlt)).
Defined.

(** C6.  For bond terms with [face > 0], [freq >= 1], [years > 0] and
    [couponRate = ytm >= 0], [priceBond] returns exactly [face]; for face
    1000, coupon rate and yield 0.05, 10 years, 2 payments a year the price
    is 1000. *)
Theorem priceBond_par (face couponRate ytm years : Q) (freq : Z) :
  0 < face -> (1 <= freq)%Z -> 0 < years -> 0 <= ytm -> couponRate == ytm ->
  priceBond (baseArgs face couponRate ytm years freq) == face
  /\ priceBond (baseArgs 1000 (5 # 100) (5 # 100) 10 2) == 1000.
Proof.
  intros Hface Hfreq Hyears Hytm Heq.
  split; [| reflexivity].
  rewrite priceBond_pvAt.
  pose proof (inject_Z_pos freq Hfreq) as Hf.
  rewrite (pvAt_coupon_ext _ (ytm / inject_Z freq * face)).
  - apply pvAt_par. apply Qle_shift_div_l; lra.
  - rewrite Heq. field. lra.
Qed.

Lemma priceBond_par_witness :
  (0 < 250 /\ (1 <= 4)%Z /\ 0 < 7 /\ 0 <= 3 # 100 /\ 3 # 100 == 3 # 100)
  /\ priceBond (baseArgs 250 (3 # 100) (3 # 100) 7 4) == 250.
Proof.
  assert (Hface : 0 < 250) by reflexivity.
  assert (Hfreq : (1 <= 4)%Z) by lia.
  assert (Hyears : 0 < 7) by reflexivity.
  assert (Hytm : 0 <= 3 # 100) by discriminate.
  assert (Heq : 3 # 100 == 3 # 100) by reflexivity.
  split; [repeat split; assumption |].
  exact (proj1 (priceBond_par 250 (3 # 100) (3 # 100) 7 4
                  Hface Hfreq Hyears Hytm Heq)).
Defined.

(** ** Durations *)

Section LoopInvariant.

Context {St : Type}.
Variable body : Z -> St -> St.
Variable P : St -> Prop.

Lemma for_loop_from_1_invariant (k : nat) (s : St) :
  P s ->
  (forall t acc, (1 <= t <= Z.of_nat k)%Z -> P acc -> P (body t acc)) ->
  P (for_loop 1 (Z.of_nat k) 1 body s).
Proof.
  intros Hs. induction k as [| k IH]; intros Hbody.
  - rewrite for_loop_from_1_zero. exact Hs.
  - rewrite for_loop_from_1_succ. apply Hbody; [lia |].
    apply IH. intros t acc Ht. apply Hbody. lia.
Qed.

End LoopInvariant.

Lemma pvAt_pos (c F r : Q) (k : nat) :
  0 <= c -> 0 < F -> 0 < 1 + r -> 0 < pvAt c F r k.
Proof.
  intros Hc HF Hr. unfold pvAt.
  assert (0 <= sumFrom1 (fun t => c / (1 + r) ^ Z.of_nat t) k).
  { apply sumFrom1_nonneg. intros t _.
    apply Qle_shift_div_l; [apply Qpower_nat_pos; lra | lra]. }
  assert (0 < F / (1 + r) ^ Z.of_nat k).
  { apply Qlt_shift_div_l; [apply Qpower_nat_pos; lra | lra]. }
  lra.
Qed.

Lemma macaulayDuration_unfold (face couponRate ytm years : Q) (freq : Z) :
  macaulayDuration (baseArgs face couponRate ytm years freq)
  = for_loop 1 (periods years freq) 1
      (fun t num =>
         num + inject_Z t / inject_Z freq
               * (if (t =? periods years freq)%Z
                  then couponRate * face / inject_Z freq + face
                  else couponRate * face / inject_Z freq)
               / Math_pow (1 + ytm / inject_Z freq) t)
      0
    / priceBond (baseArgs face couponRate ytm years freq).
Proof. reflexivity. Qed.

Lemma macaulayDuration_nonneg (face couponRate ytm years : Q) (freq : Z) :
  0 < face -> 0 <= couponRate -> 0 <= ytm -> (1 <= freq)%Z ->
  0 <= macaulayDuration (baseArgs face couponRate ytm years freq).
Proof.
  intros Hface Hcoupon Hytm Hfreq.
  pose proof (inject_Z_pos freq Hfreq) as Hf.
  rewrite macaulayDuration_unfold.
  assert (Hc : 0 <= couponRate * face / inject_Z freq)
    by (apply Qle_shift_div_l; [lra | nra]).
  assert (Hr : 0 <= ytm / inject_Z freq) by (apply Qle_shift_div_l; lra).
  apply Qle_shift_div_l.
  - rewrite priceBond_pvAt. apply pvAt_pos; lra.
  - rewrite Qmult_0_l. rewrite <- (periods_nat years freq) at 1.
    apply for_loop_from_1_invariant with (P := fun num => 0 <= num); [lra |].
    intros t num Ht Hnum.
    assert (0 <= inject_Z t / inject_Z freq).
    { apply Qle_shift_div_l; [lra |]. rewrite Qmult_0_l.
      change 0 with (inject_Z 0). rewrite <- Zle_Qle. lia. }
    assert (0 <= (if (t =? periods years freq)%Z
                  then couponRate * face / inject_Z freq + face
                  else couponRate * face / inject_Z freq))
      by (destruct (t =? periods years freq)%Z; lra).
    assert (0 < Math_pow (1 + ytm / inject_Z freq) t)
      by (apply Qpower_0_lt; lra).
    assert (0 <= inject_Z t / inject_Z freq *
                 (if (t =? periods years freq)%Z
                  then couponRate * face / inject_Z freq + face
                  else couponRate * face / inject_Z freq)) by nra.
    assert (0 <= inject_Z t / inject_Z freq *
                 (if (t =? periods years freq)%Z
                  then couponRate * face / inject_Z freq + face
                  else couponRate * face / inject_Z freq)
                 / Math_pow (1 + ytm / inject_Z freq) t)
      by (apply Qle_shift_div_l; lra).
    lra.
Qed.

(** C7, as the code has it.  For every arguments object with [ytm] and
    [freq] present, [modifiedDuration] returns [macaulayDuration] divided
    by [1 + ytm/freq]; whenever [ytm >= 0], [freq >= 1] and the Macaulay
    duration is not negative, which is the case for [face > 0] and
    [couponRate >= 0], the modified duration is at most the Macaulay
    duration. *)
Theorem modifiedDuration_le_macaulay
    (face couponRate ytm years : Q) (freq : Z) :
  let args := baseArgs face couponRate ytm years freq in
  let Dmod := macaulayDuration args / (1 + ytm / inject_Z freq) in
  (forall (a : Args) (y : Q) (f : Z),
      BondArgs.ytm a = Some y -> BondArgs.freq a = Some f ->
      modifiedDuration a = Some (macaulayDuration a / (1 + y / inject_Z f)))
  /\ modifiedDuration args = Some Dmod
  /\ (0 <= ytm -> (1 <= freq)%Z ->
      (0 <= macaulayDuration args -> Dmod <= macaulayDuration args)
      /\ (0 < face -> 0 <= couponRate ->
          0 <= macaulayDuration args /\ Dmod <= macaulayDuration args)).
Proof.
  intros args Dmod.
  split; [| split; [reflexivity |]].
  { intros a y f Hy Hf. unfold modifiedDuration. rewrite Hy, Hf. reflexivity. }
  intros Hytm Hfreq.
  pose proof (inject_Z_pos freq Hfreq) as Hf.
  assert (Hr : 0 <= ytm / inject_Z freq) by (apply Qle_shift_div_l; lra).
  assert (Hle : 0 <= macaulayDuration args -> Dmod <= macaulayDuration args).
  { intros HD. subst Dmod.
    assert (E : macaulayDuration args == macaulayDuration args / 1)
      by (field; lra).
    rewrite E at 2. apply Qdiv_le_denominator; lra. }
  split; [exact Hle |].
  intros Hface Hcoupon.
  assert (0 <= macaulayDuration args)
    by (apply macaulayDuration_nonneg; assumption).
  split; [assumption | apply Hle; assumption].
Qed.

Lemma modifiedDuration_le_macaulay_witness :
  let args := baseArgs 1000 (5 # 100) (5 # 100) 10 2 in
  (0 <= 5 # 100 /\ (1 <= 2)%Z /\ 0 < 1000 /\ 0 <= 5 # 100)
  /\ (0 <= macaulayDuration args
      /\ macaulayDuration args / (1 + (5 # 100) / inject_Z 2)
         <= macaulayDuration args).
Proof.
  intros args.
  assert (Hytm : 0 <= 5 # 100) by discriminate.
  assert (Hfreq : (1 <= 2)%Z) by lia.
  assert (Hface : 0 < 1000) by reflexivity.
  split; [repeat split; assumption |].
  exact (proj2 (proj2 (proj2
           (modifiedDuration_le_macaulay 1000 (5 # 100) (5 # 100) 10 2))
           Hytm Hfreq) Hface Hytm).
Defined.

(** C7 as stated fails: with a coupon rate of -0.6, a yield of 0.25, two
    annual periods and face 1000 the price is -224, the Macaulay duration is
    [32 / -224 = -1/7], and dividing it by [1.25] gives the larger value
    [-4/35]. *)
Lemma modifiedDuration_le_macaulay_counterexample :
  let args := baseArgs 1000 (- (6 # 10)) (1 # 4) 2 1 in
  0 <= 1 # 4
  /\ priceBond args == - (224 # 1)
  /\ macaulayDuration args == - (1 # 7)
  /\ exists Dmod, modifiedDuration args = Some Dmod
                  /\ Dmod == - (4 # 35)
                  /\ ~ Dmod <= macaulayDuration args.
Proof.
  split; [discriminate |].
  split; [reflexivity | split; [reflexivity |]].
  eexists. split; [reflexivity |]. split; [reflexivity |].
  vm_compute. intros H. apply H. reflexivity.
Qed.

(** ** Yield to worst *)

Lemma fold_left_const_iter {A B : Type} (f : A -> A) (l : list B) (x : A) :
  fold_left (fun acc _ => f acc) l x = Nat.iter (List.length l) f x.
Proof.
  revert x. induction l as [| i l IH]; intros x; cbn [fold_left List.length].
  - reflexivity.
  - rewrite IH. symmetry. apply Nat.iter_succ_r.
Qed.

Lemma iter_ext {A : Type} (f g : A -> A) (k : nat) (x : A) :
  (forall y, f y = g y) -> Nat.iter k f x = Nat.iter k g x.
Proof.
  intros H. induction k as [| k IH].
  - reflexivity.
  - rewrite !Nat.iter_succ, IH. apply H.
Qed.

(** The search loop runs its body exactly 60 times. *)
Lemma for_loop_60 {A : Type} (f : A -> A) (x : A) :
  for_loop_lt 0 60 1 (fun _ acc => f acc) x = Nat.iter 60 f x.
Proof.
  unfold for_loop_lt, for_loop. rewrite fold_left_const_iter. reflexivity.
Qed.

Lemma gt_true_iff (a b : Q) : gt a b = true <-> b < a.
Proof.
  unfold gt. rewrite negb_true_iff, <- not_true_iff_false, Qle_bool_iff.
  split; [apply Qnot_le_lt | apply Qlt_not_le].
Qed.

Lemma bisectStep_spec (c callPrice target : Q) (k : nat) (b : Q * Q) :
  bisectStep c callPrice target (Z.of_nat k) b
  = bisect_spec (fun r => pvAt c callPrice r k) target b.
Proof.
  destruct b as [lo hi]. unfold bisectStep, bisect_spec. cbn [fst snd].
  rewrite pvLoop_sum. fold (pvAt c callPrice ((lo + hi) / 2) k).
  destruct (Qlt_le_dec target (pvAt c callPrice ((lo + hi) / 2) k)) as [H | H].
  - apply gt_true_iff in H. unfold Math_pow, pvAt in *. rewrite H. reflexivity.
  - destruct (gt (pvAt c callPrice ((lo + hi) / 2) k) target) eqn:E.
    + apply gt_true_iff in E. lra.
    + unfold Math_pow, pvAt in *. rewrite E. reflexivity.
Qed.

Lemma yieldToWorstApprox_callable
    (face couponRate ytm years : Q) (freq : Z) (callYears callPrice : Q) :
  yieldToWorstApprox
    (callArgs face couponRate ytm years freq true callYears callPrice)
  = yieldToWorst_spec face couponRate ytm years freq true callYears callPrice.
Proof.
  unfold yieldToWorstApprox, yieldToWorst_spec, callRate_spec, callArgs, dflt;
    cbn [BondArgs.face BondArgs.couponRate BondArgs.ytm BondArgs.years
         BondArgs.freq BondArgs.callable BondArgs.callYears
         BondArgs.callPrice negb].
  rewrite for_loop_60, priceBond_unfold.
  fold (periods callYears freq).
  rewrite <- (periods_nat callYears freq) at 1.
  rewrite (iter_ext _ _ 60 _ (bisectStep_spec _ _ _ _)).
  destruct (Nat.iter 60 _ _) as [lo hi]. reflexivity.
Qed.

(** The search keeps its bounds inside the initial ones and halves their
    distance at every step. *)
Lemma bisect_bracket (pv : Q -> Q) (target lo0 hi0 : Q) (k : nat) :
  lo0 <= hi0 ->
  let b := Nat.iter k (bisect_spec pv target) (lo0, hi0) in
  lo0 <= fst b /\ fst b <= snd b /\ snd b <= hi0
  /\ snd b - fst b == (hi0 - lo0) / 2 ^ Z.of_nat k.
Proof.
  intros H0. induction k as [| k IH].
  - cbn [Nat.iter nat_rect fst snd]. change (2 ^ Z.of_nat 0) with 1.
    repeat split; try lra. field.
  - rewrite Nat.iter_succ. cbv zeta in IH |- *.
    destruct (Nat.iter k (bisect_spec pv target) (lo0, hi0)) as [lo hi].
    cbn [fst snd] in IH. destruct IH as (Hlo & Hle & Hhi & Hw).
    rewrite Qpower_nat_succ.
    pose proof (Qpower_nat_pos 2 k eq_refl) as Hp.
    assert (Hw' : (hi0 - lo0) / (2 ^ Z.of_nat k * 2) == (hi - lo) / 2).
    { rewrite Hw. field. lra. }
    assert (Hm : (lo + hi) / 2 == lo + (hi - lo) / 2) by field.
    assert (Hd : 0 <= (hi - lo) / 2) by (apply Qle_shift_div_l; lra).
    assert (Hu : (hi - lo) / 2 <= hi - lo) by (apply Qle_shift_div_r; lra).
    unfold bisect_spec; cbn [fst snd].
    destruct (Qlt_le_dec target (pv ((lo + hi) / 2))); cbn [fst snd];
      rewrite Hw', ?Hm; repeat split; try lra; field.
Qed.




(** *** Evaluation in lowest terms computes the same numbers *)

Lemma gt_compat (a a' b b' : Q) : a == a' -> b == b' -> gt a b = gt a' b'.
Proof. intros Ha Hb. unfold gt. rewrite Ha, Hb. reflexivity. Qed.

Lemma pvLoopRed_correct (c c' r r' : Q) (k : nat) :
  c == c' -> r == r' ->
  pvLoopRed c r (Z.of_nat k) 0 == pvLoop c' r' (Z.of_nat k) 0.
Proof.
  intros Hc Hr. unfold pvLoopRed, pvLoop. induction k as [| k IH].
  - rewrite !for_loop_from_1_zero. reflexivity.
  - rewrite !for_loop_from_1_succ, Qred_correct, IH.
    unfold Math_pow. rewrite Hc, Hr. reflexivity.
Qed.

Lemma bisectStepRed_correct (c c' callPrice target target' : Q) (k : nat)
    (b b' : Q * Q) :
  c == c' -> target == target' -> boundsEq b b' ->
  boundsEq (bisectStepRed c callPrice target (Z.of_nat k) b)
           (bisectStep c' callPrice target' (Z.of_nat k) b').
Proof.
  intros Hc Ht [Hlo Hhi]. destruct b as [lo hi], b' as [lo' hi'].
  cbn [fst snd] in Hlo, Hhi. unfold bisectStepRed, bisectStep.
  assert (Hmid : Qred ((lo + hi) / 2) == (lo' + hi') / 2).
  { rewrite Qred_correct, Hlo, Hhi. reflexivity. }
  rewrite (gt_compat _ (pvLoop c' ((lo' + hi') / 2) (Z.of_nat k) 0
                        + callPrice / Math_pow (1 + (lo' + hi') / 2) (Z.of_nat k))
                     _ target').
  - destruct (gt _ target'); split; cbn [fst snd]; assumption.
  - rewrite Qred_correct, (pvLoopRed_correct c c' _ ((lo' + hi') / 2) k Hc Hmid).
    unfold Math_pow. rewrite Hmid. reflexivity.
  - exact Ht.
Qed.

Lemma iter_bisectStepRed_correct (c c' callPrice target target' : Q)
    (k j : nat) (b : Q * Q) :
  c == c' -> target == target' ->
  boundsEq (Nat.iter j (bisectStepRed c callPrice target (Z.of_nat k)) b)
           (Nat.iter j (bisectStep c' callPrice target' (Z.of_nat k)) b).
Proof.
  intros Hc Ht. induction j as [| j IH].
  - split; reflexivity.
  - rewrite !Nat.iter_succ.
    apply bisectStepRed_correct; assumption.
Qed.

Lemma yieldToWorstApprox_reduced
    (face couponRate ytm years : Q) (freq : Z) (callYears callPrice : Q) :
  yieldToWorstApprox
    (callArgs face couponRate ytm years freq true callYears callPrice)
  == yieldToWorstApproxRed face couponRate ytm years freq callYears callPrice.
Proof.
  unfold yieldToWorstApprox, yieldToWorstApproxRed, callArgs, dflt;
    cbn [BondArgs.face BondArgs.couponRate BondArgs.ytm BondArgs.years
         BondArgs.freq BondArgs.callable BondArgs.callYears
         BondArgs.callPrice negb].
  rewrite for_loop_60.
  set (c := couponRate * face / inject_Z freq).
  set (target := priceBond (baseArgs face couponRate ytm years freq)).
  rewrite <- (periods_nat callYears freq).
  set (k := Z.to_nat (periods callYears freq)).
  pose proof (iter_bisectStepRed_correct (Qred c) c callPrice (Qred target)
                target k 60 (- (99 # 100), 1) (Qred_correct c)
                (Qred_correct target)) as H.
  destruct (Nat.iter 60 (bisectStepRed _ _ _ _) _) as [lo hi].
  destruct (Nat.iter 60 (bisectStep _ _ _ _) _) as [lo' hi'].
  destruct H as [Hlo Hhi]. cbn [fst snd] in Hlo, Hhi.
  unfold Math_min, Math_max, Math_pow. rewrite Hlo, Hhi. reflexivity.
Qed.

(** *** The rate found by the search for a bond above par *)

Lemma Qpower_nat_le_base (a b : Q) (k : nat) :
  0 < a -> a <= b -> a ^ Z.of_nat k <= b ^ Z.of_nat k.
Proof.
  intros Ha Hab. induction k as [| k IH].
  - apply Qle_refl.
  - rewrite (Qpower_nat_succ a k), (Qpower_nat_succ b k).
    pose proof (Qpower_nat_pos a k Ha). nra.
Qed.

Lemma pvAt_nonincreasing (c F r1 r2 : Q) (k : nat) :
  0 <= c -> 0 <= F -> 0 < 1 + r1 -> r1 <= r2 ->
  pvAt c F r2 k <= pvAt c F r1 k.
Proof.
  intros Hc HF Hr1 Hr. unfold pvAt.
  assert (Hs : sumFrom1 (fun t => c / (1 + r2) ^ Z.of_nat t) k
               <= sumFrom1 (fun t => c / (1 + r1) ^ Z.of_nat t) k).
  { apply sumFrom1_le. intros t _.
    apply Qdiv_le_denominator; [exact Hc | apply Qpower_nat_pos; lra |].
    apply Qpower_nat_le_base; lra. }
  assert (Hf : F / (1 + r2) ^ Z.of_nat k <= F / (1 + r1) ^ Z.of_nat k).
  { apply Qdiv_le_denominator; [exact HF | apply Qpower_nat_pos; lra |].
    apply Qpower_nat_le_base; lra. }
  lra.
Qed.

(** One more period adds the discounted excess of the coupon over the
    interest on the redemption. *)
Lemma pvAt_succ (c F r : Q) (k : nat) :
  0 < 1 + r ->
  pvAt c F r (S k) == pvAt c F r k + (c - r * F) / (1 + r) ^ Z.of_nat (S k).
Proof.
  intros Hr. unfold pvAt. cbn [sumFrom1]. rewrite Qpower_nat_succ.
  pose proof (Qpower_nat_pos (1 + r) k Hr). field. split; lra.
Qed.

Lemma pvAt_le_periods (c F r : Q) (k k' : nat) :
  0 < 1 + r -> r * F <= c -> (k <= k')%nat ->
  pvAt c F r k <= pvAt c F r k'.
Proof.
  intros Hr Hc Hk. induction Hk as [| k' Hk IH].
  - apply Qle_refl.
  - rewrite (pvAt_succ c F r k' Hr).
    assert (0 <= (c - r * F) / (1 + r) ^ Z.of_nat (S k'))
      by (apply Qle_shift_div_l; [apply Qpower_nat_pos; lra | lra]).
    lra.
Qed.

Lemma periods_monotone (y1 y2 : Q) (freq : Z) :
  (1 <= freq)%Z -> y1 <= y2 ->
  (Z.to_nat (periods y1 freq) <= Z.to_nat (periods y2 freq))%nat.
Proof.
  intros Hfreq Hy. pose proof (inject_Z_pos freq Hfreq) as Hf.
  unfold periods, Math_round.
  assert (Qfloor (y1 * inject_Z freq + (1 # 2))
          <= Qfloor (y2 * inject_Z freq + (1 # 2)))%Z
    by (apply Qfloor_resp_le; nra).
  lia.
Qed.

(** While the present value at the yield's own rate [r0] does not exceed
    the target, the lower bound of the search stays below [r0]. *)
Lemma bisect_lower_bound (c F target r0 : Q) (n k : nat) (b : Q * Q) :
  0 <= c -> 0 <= F -> 0 < 1 + r0 ->
  pvAt c F r0 n <= target ->
  fst b < r0 ->
  fst (Nat.iter k (bisect_spec (fun r => pvAt c F r n) target) b) < r0.
Proof.
  intros Hc HF Hr0 Hpv Hb. induction k as [| k IH].
  - exact Hb.
  - rewrite Nat.iter_succ.
    destruct (Nat.iter k _ b) as [lo hi]. cbn [fst] in IH.
    unfold bisect_spec. cbn [fst snd].
    destruct (Qlt_le_dec target (pvAt c F ((lo + hi) / 2) n)) as [Hgt | Hle];
      cbn [fst]; [| exact IH].
    destruct (Qlt_le_dec ((lo + hi) / 2) r0) as [Hlt | Hge]; [exact Hlt |].
    pose proof (pvAt_nonincreasing c F r0 ((lo + hi) / 2) n Hc HF Hr0 Hge).
    lra.
Qed.

(** C8, as the code has it.  For a callable bond with [callPrice = face],
    [face > 0], [years > 0], [freq >= 1], [callYears] in [(0, years]] and
    [0 <= ytm < couponRate], [yieldToWorstApprox] returns a value that is at
    most [ytm], and strictly less exactly when the compounded yield to call
    [max(-0.99, (1+r)^freq - 1)] is below [ytm]; the per-period rate [r]
    found by its search is below [ytm/freq] plus the half-width [1.99/2^61]
    of the last search interval. *)
Theorem yieldToWorstApprox_premium
    (face couponRate ytm years : Q) (freq : Z) (callYears : Q) :
  0 < face -> 0 < years -> (1 <= freq)%Z ->
  0 < callYears -> callYears <= years ->
  0 <= ytm -> ytm < couponRate ->
  let ytw := yieldToWorstApprox
               (callArgs face couponRate ytm years freq true callYears face) in
  let r := callRate_spec face couponRate ytm years freq callYears face in
  ytw <= ytm
  /\ (ytw < ytm <-> Qmax (- (99 # 100)) ((1 + r) ^ freq - 1) < ytm)
  /\ r < ytm / inject_Z freq + (199 # 100) / 2 ^ 61.
Proof.
  intros Hface Hyears Hfreq Hcall0 Hcall Hytm Hcoupon ytw r.
  split; [| split].
  - subst ytw. rewrite yieldToWorstApprox_callable. unfold yieldToWorst_spec.
    apply Q.le_min_l.
  - subst ytw r. rewrite yieldToWorstApprox_callable. unfold yieldToWorst_spec.
    cbv zeta. rewrite Q.min_lt_iff. split; [| right; assumption].
    intros [H | H]; [| exact H]. exfalso. exact (Qlt_irrefl _ H).
  - subst r. pose proof (inject_Z_pos freq Hfreq) as Hf.
    unfold callRate_spec, priceBond_spec. cbv zeta.
    fold (periods years freq) (periods callYears freq).
    set (c := couponRate * face / inject_Z freq).
    set (r0 := ytm / inject_Z freq).
    set (n := Z.to_nat (periods years freq)).
    set (nc := Z.to_nat (periods callYears freq)).
    fold (pvAt c face r0 n).
    assert (Hr0 : 0 <= r0) by (apply Qle_shift_div_l; lra).
    assert (Hc : r0 * face <= c).
    { subst r0 c. apply Qle_shift_div_l; [lra |].
      assert (E : ytm / inject_Z freq * face * inject_Z freq == ytm * face)
        by (field; lra).
      rewrite E. nra. }
    assert (Hc0 : 0 <= c) by nra.
    assert (Hpv : pvAt c face r0 nc <= pvAt c face r0 n).
    { apply pvAt_le_periods; [lra | exact Hc |].
      apply periods_monotone; assumption. }
    pose proof (bisect_lower_bound c face (pvAt c face r0 n) r0 nc 60
                  (- (99 # 100), 1) Hc0 (Qlt_le_weak _ _ Hface)) as Hlo.
    pose proof (bisect_bracket (fun r => pvAt c face r nc) (pvAt c face r0 n)
                  (- (99 # 100)) 1 60) as Hbr.
    cbv zeta in Hbr.
    destruct (Nat.iter 60 _ _) as [lo hi]. cbn [fst snd] in *.
    destruct Hbr as (_ & _ & _ & Hw); [discriminate |].
    assert (Hlo' : lo < r0) by (apply Hlo; lra).
    assert (Hhalf : (1 - - (99 # 100)) / 2 ^ Z.of_nat 60 / 2
                    == (199 # 100) / 2 ^ 61) by (vm_compute; reflexivity).
    assert (Hm : (lo + hi) / 2 == lo + (hi - lo) / 2) by field.
    rewrite Hm, Hw, Hhalf. lra.
Qed.

Lemma yieldToWorstApprox_premium_witness :
  (0 < 1000 /\ 0 < 10 /\ (1 <= 2)%Z /\ 0 < 5 /\ 5 <= 10
   /\ 0 <= 4 # 100 /\ 4 # 100 < 5 # 100)
  /\ yieldToWorstApprox (callArgs 1000 (5 # 100) (4 # 100) 10 2 true 5 1000)
     <= 4 # 100.
Proof.
  assert (Hface : 0 < 1000) by reflexivity.
  assert (Hyears : 0 < 10) by reflexivity.
  assert (Hfreq : (1 <= 2)%Z) by lia.
  assert (Hcall0 : 0 < 5) by reflexivity.
  assert (Hcall : 5 <= 10) by discriminate.
  assert (Hytm : 0 <= 4 # 100) by discriminate.
  assert (Hcoupon : 4 # 100 < 5 # 100) by reflexivity.
  split; [repeat split; assumption |].
  exact (proj1 (yieldToWorstApprox_premium 1000 (5 # 100) (4 # 100) 10 2 5
                  Hface Hyears Hfreq Hcall0 Hcall Hytm Hcoupon)).
Defined.

(** The same happens with a call date before maturity: for 3 years, two
    payments a year, coupon 10.1 percent and yield 10 percent the call date
    is after 2 years and the function returns [ytm]. *)
Lemma early_call_returns_ytm :
  midCallYears 3 == 2
  /\ yieldToWorstApprox
       (callArgs 1000 (101 # 1000) (10 # 100) 3 2 true (midCallYears 3) 1000)
     == 10 # 100.
Proof.
  split; [reflexivity |].
  rewrite yieldToWorstApprox_reduced. vm_compute. reflexivity.
Qed.

(** C8 as stated fails: with [callYears = years = 1], two payments a year,
    coupon rate 0.05 and yield 0.04 the search finds the bond's own
    per-period rate 0.02, the yield to call is [1.02^2 - 1 > 0.04], and the
    function returns [ytm] itself. *)
Lemma yieldToWorstApprox_premium_counterexample :
  let ytw :=
    yieldToWorstApprox (callArgs 1000 (5 # 100) (4 # 100) 1 2 true 1 1000) in
  (0 < 1000 /\ 0 < 1 /\ (1 <= 2)%Z /\ 0 < 1 /\ 1 <= 1
   /\ 0 <= 4 # 100 /\ 4 # 100 < 5 # 100)
  /\ ytw == 4 # 100
  /\ ~ ytw < 4 # 100.
Proof.
  intros ytw.
  split; [repeat (split; [reflexivity || discriminate || lia |]); reflexivity |].
  assert (E : ytw == 4 # 100).
  { subst ytw. rewrite yieldToWorstApprox_reduced. vm_compute. reflexivity. }
  split; [exact E |].
  rewrite E. apply Qlt_irrefl.
Qed.

(** ** The grid sampler *)

Lemma fold_left_push {A B : Type} (f : B -> A) (l : list B) (acc : list A) :
  fold_left (fun points i => points ++ [f i]) l acc = acc ++ map f l.
Proof.
  revert acc. induction l as [| i l IH]; intros acc; cbn [fold_left map].
  - symmetry. apply app_nil_r.
  - rewrite IH, <- app_assoc. reflexivity.
Qed.

(** The loop over [bps] visits the 41 offsets in increasing order. *)
Lemma for_indices_grid : for_indices (-200) 200 10 = map offsetAt (seq 0 41).
Proof. reflexivity. Qed.

Lemma gridPoints_map (face couponRate ytm years : Q) (freq : Z)
    (callable : bool) :
  gridPoints face couponRate ytm years freq callable
  = map (fun i => gridPoint face couponRate ytm years freq callable (offsetAt i))
        (seq 0 41).
Proof.
  unfold gridPoints, for_loop. rewrite fold_left_push, for_indices_grid.
  cbn [app]. apply map_map.
Qed.

Lemma gridPoints_length (face couponRate ytm years : Q) (freq : Z)
    (callable : bool) :
  List.length (gridPoints face couponRate ytm years freq callable) = 41%nat.
Proof. rewrite gridPoints_map, length_map, length_seq. reflexivity. Qed.

Lemma gridPoints_yld (face couponRate ytm years : Q) (freq : Z)
    (callable : bool) :
  map yld (gridPoints face couponRate ytm years freq callable)
  = map (fun i => gridYield ytm (offsetAt i) * 100) (seq 0 41).
Proof. rewrite gridPoints_map, map_map. reflexivity. Qed.

Lemma gridPoints_yld_nth (face couponRate ytm years : Q) (freq : Z)
    (callable : bool) (i : nat) :
  (i < 41)%nat ->
  nth i (map yld (gridPoints face couponRate ytm years freq callable)) 0
  = gridYield ytm (offsetAt i) * 100.
Proof.
  intros Hi. rewrite gridPoints_yld.
  rewrite (nth_indep _ 0 (gridYield ytm (offsetAt 0) * 100))
    by (rewrite length_map, length_seq; exact Hi).
  rewrite (map_nth (fun i => gridYield ytm (offsetAt i) * 100) (seq 0 41) 0%nat).
  rewrite seq_nth by exact Hi. reflexivity.
Qed.

Lemma offsetAt_Q (i : nat) :
  inject_Z (offsetAt i) / 10000 == (inject_Z (Z.of_nat i) - 20) / 1000.
Proof.
  unfold offsetAt. rewrite inject_Z_plus, inject_Z_mult.
  change (inject_Z (-200)) with (- (200 # 1)). change (inject_Z 10) with 10.
  field.
Qed.

Lemma gridYield_floor (ytm : Q) (bps : Z) : 1 # 10000 <= gridYield ytm bps.
Proof. apply Q.le_max_l. Qed.

Lemma gridYield_monotone (ytm : Q) (i j : nat) :
  (i <= j)%nat -> gridYield ytm (offsetAt i) <= gridYield ytm (offsetAt j).
Proof.
  intros H. unfold gridYield, Math_max. apply Q.max_le_compat_l.
  rewrite !offsetAt_Q.
  assert (inject_Z (Z.of_nat i) <= inject_Z (Z.of_nat j))
    by (rewrite <- Zle_Qle; lia).
  assert (E : forall x, (x - 20) / 1000 == (x - 20) * (1 # 1000))
    by (intros x; field).
  rewrite !E. lra.
Qed.

(** Above a yield of 2.01 percent no sample is floored. *)
Lemma gridYield_unfloored (ytm : Q) (i : nat) :
  201 # 10000 <= ytm ->
  gridYield ytm (offsetAt i) == ytm + (inject_Z (Z.of_nat i) - 20) * (1 # 1000).
Proof.
  intros H. unfold gridYield, Math_max.
  assert (E : inject_Z (offsetAt i) / 10000
              == (inject_Z (Z.of_nat i) - 20) * (1 # 1000))
    by (rewrite offsetAt_Q; field).
  rewrite E.
  apply Q.max_r.
  assert (0 <= inject_Z (Z.of_nat i))
    by (change 0 with (inject_Z 0); rewrite <- Zle_Qle; lia).
  lra.
Qed.

(** C3, as the code has it.  The grid sampler always produces exactly 41
    points, at the offsets -200, -190, ..., +200 basis points; for every
    input the sampled yields (stored as percentages in [yld]) never
    decrease along the sequence, and whenever [ytm >= 0.0201], so that no
    sample is floored, they are strictly increasing and symmetric around
    [ytm]. *)
Theorem sampler_yields (s : State) :
  let ytm := ytmPct s / 100 in
  let ylds := map yld (points (computed s)) in
  List.length (points (computed s)) = 41%nat
  /\ ylds = map (fun i => gridYield ytm (-200 + 10 * Z.of_nat i) * 100) (seq 0 41)
  /\ nondecreasing ylds
  /\ (201 # 10000 <= ytm -> increasing ylds /\ symmetricAround (ytm * 100) ylds).
Proof.
  intros ytm ylds. subst ylds. cbn [computed points].
  fold ytm.
  set (face := s_face s). set (cr := couponPct s / 100).
  set (years := s_years s). set (freq := s_freq s). set (cb := s_callable s).
  split; [apply gridPoints_length | split; [apply gridPoints_yld | split]].
  - intros i j Hij. rewrite length_map, gridPoints_length in Hij.
    rewrite !gridPoints_yld_nth by lia.
    pose proof (gridYield_monotone ytm i j ltac:(lia)). lra.
  - intros Hytm. split.
    + intros i j Hij. rewrite length_map, gridPoints_length in Hij.
      rewrite !gridPoints_yld_nth by lia.
      rewrite !gridYield_unfloored by exact Hytm.
      assert (inject_Z (Z.of_nat i) < inject_Z (Z.of_nat j))
        by (rewrite <- Zlt_Qlt; lia).
      lra.
    + intros i Hi. rewrite length_map, gridPoints_length in Hi |- *.
      rewrite !gridPoints_yld_nth by lia.
      rewrite !gridYield_unfloored by exact Hytm.
      replace (Z.of_nat (41 - 1 - i)) with (40 - Z.of_nat i)%Z by lia.
      unfold Zminus. rewrite inject_Z_plus, inject_Z_opp.
      change (inject_Z 40) with 40. ring.
Qed.

Lemma sampler_yields_witness :
  let s := mkState 1000 5 5 10 2 "corporate" false false false false in
  201 # 10000 <= ytmPct s / 100
  /\ symmetricAround (ytmPct s / 100 * 100) (map yld (points (computed s))).
Proof.
  intros s.
  assert (H : 201 # 10000 <= ytmPct s / 100) by discriminate.
  split; [exact H |].
  apply (sampler_yields s). exact H.
Defined.

(** C3 as stated fails: at a yield of 1 percent the samples at the offsets
    from -200 to -100 are all floored to 0.0001, so the sequence is neither
    strictly increasing nor symmetric around 0.01 (the first and the last
    sample, 0.01 and 3 percent, add up to 3.01). *)
Lemma sampler_yields_counterexample :
  let s := mkState 1000 5 1 10 2 "corporate" false false false false in
  let ylds := map yld (points (computed s)) in
  (nth 0 ylds 0 == 1 # 100 /\ nth 1 ylds 0 == 1 # 100 /\ nth 40 ylds 0 == 3)
  /\ ~ symmetricAround (ytmPct s / 100 * 100) ylds
  /\ ~ increasing ylds.
Proof.
  intros s ylds. subst ylds. cbn [computed points].
  split; [| split; intros H].
  - rewrite !gridPoints_yld_nth by lia. repeat split.
  - specialize (H 0%nat). rewrite length_map, gridPoints_length in H.
    rewrite !gridPoints_yld_nth in H by lia.
    specialize (H ltac:(lia)). vm_compute in H. discriminate H.
  - specialize (H 0%nat 1%nat). rewrite length_map, gridPoints_length in H.
    rewrite !gridPoints_yld_nth in H by lia.
    specialize (H ltac:(lia)). vm_compute in H. discriminate H.
Qed.

Lemma for_indices_grid_In (bps : Z) :
  In bps (for_indices (-200) 200 10) <->
  exists i, (i < 41)%nat /\ bps = offsetAt i.
Proof.
  rewrite for_indices_grid, in_map_iff. split.
  - intros (i & Hi & Hin). apply in_seq in Hin. exists i. split; [lia | auto].
  - intros (i & Hi & ->). exists i. split; [reflexivity | apply in_seq; lia].
Qed.

Lemma gridPoint_In (face couponRate ytm years : Q) (freq : Z)
    (callable : bool) (bps : Z) :
  In bps (for_indices (-200) 200 10) ->
  In (gridPoint face couponRate ytm years freq callable bps)
     (gridPoints face couponRate ytm years freq callable).
Proof.
  intros H. apply for_indices_grid_In in H. destruct H as (i & Hi & ->).
  rewrite gridPoints_map. apply in_map_iff. exists i.
  split; [reflexivity | apply in_seq; lia].
Qed.

Lemma ytwGrid_lower_bound (face couponRate ytm years : Q) (freq : Z)
    (callable : bool) (bps : Z) :
  - (99 # 100) <= ytwGrid face couponRate ytm years freq callable bps.
Proof.
  pose proof (gridYield_floor ytm bps) as Hy.
  unfold ytwGrid. destruct callable.
  - rewrite yieldToWorstApprox_callable. unfold yieldToWorst_spec.
    apply Q.min_glb; [lra | apply Q.le_max_l].
  - change (- (99 # 100) <= gridYield ytm bps). lra.
Qed.

(** C4, as the code has it.  For every input and every offset [bps] in
    -200, -190, ..., 200 the sampled yield is
    [max(0.0001, ytm + bps/10000)], hence at least 0.0001; the [priceBond]
    call for [Price] receives that yield, the call for
    ["Price (Callable est)"] receives the last rate of the sampler's calls,
    every rate handed to [priceBond] is at least -0.99, and with
    [callable = false] every one is at least 0.0001. *)
Theorem sampler_rates (s : State) (bps : Z) :
  In bps (for_indices (-200) 200 10) ->
  let face := s_face s in
  let couponRate := couponPct s / 100 in
  let ytm := ytmPct s / 100 in
  let years := s_years s in
  let freq := s_freq s in
  let callable := s_callable s in
  let y := gridYield ytm bps in
  let pt := gridPoint face couponRate ytm years freq callable bps in
  let rates := samplerPriceBondYtms face couponRate ytm years freq callable bps in
  y = Qmax (1 # 10000) (ytm + inject_Z bps / 10000)
  /\ 1 # 10000 <= y
  /\ In pt (points (computed s))
  /\ yld pt = y * 100
  /\ Price pt = priceBond (baseArgs face couponRate (hd y rates) years freq)
  /\ hd y rates = y
  /\ PriceCallable pt
     = priceBond (baseArgs face couponRate (last rates y) years freq)
  /\ Forall (fun rate => - (99 # 100) <= rate) rates
  /\ (callable = false -> Forall (fun rate => 1 # 10000 <= rate) rates).
Proof.
  intros Hbps face couponRate ytm years freq callable y pt rates.
  pose proof (gridYield_floor ytm bps) as Hy. fold y in Hy.
  split; [reflexivity | split; [exact Hy | split]].
  { apply gridPoint_In. exact Hbps. }
  split; [reflexivity | split; [reflexivity | split; [reflexivity |]]].
  subst pt rates. unfold samplerPriceBondYtms, gridPoint. fold y.
  destruct callable; (split; [| split]).
  - reflexivity.
  - apply Forall_cons; [lra |]. apply Forall_cons; [lra |].
    apply Forall_cons; [apply ytwGrid_lower_bound | apply Forall_nil].
  - discriminate.
  - reflexivity.
  - apply Forall_cons; [lra | apply Forall_nil].
  - intros _. apply Forall_cons; [exact Hy | apply Forall_nil].
Qed.

Lemma sampler_rates_witness :
  let s := mkState 1000 5 5 10 2 "corporate" false false false false in
  (In (-200)%Z (for_indices (-200) 200 10) /\ s_callable s = false)
  /\ Forall (fun rate => 1 # 10000 <= rate)
        (samplerPriceBondYtms (s_face s) (couponPct s / 100) (ytmPct s / 100)
                              (s_years s) (s_freq s) (s_callable s) (-200)).
Proof.
  intros s.
  assert (Hin : In (-200)%Z (for_indices (-200) 200 10)) by (left; reflexivity).
  assert (Hc : s_callable s = false) by reflexivity.
  split; [split; assumption |].
  exact (proj2 (proj2 (proj2 (proj2 (proj2 (proj2 (proj2 (proj2
           (sampler_rates s (-200) Hin)))))))) Hc).
Defined.

Lemma samplerPriceBondYtms_callable_last (P : Q -> Prop)
    (face couponRate ytm years : Q) (freq : Z) (bps : Z) :
  Forall P (samplerPriceBondYtms face couponRate ytm years freq true bps) ->
  P (ytwGrid face couponRate ytm years freq true bps).
Proof.
  intros H. unfold samplerPriceBondYtms in H.
  apply Forall_inv_tail, Forall_inv_tail, Forall_inv in H. exact H.
Qed.

(** C4 as stated fails: for a callable bond of 3 annual periods with coupon
    15 percent and yield 0 the sample at -200 basis points is floored to
    0.0001, its price exceeds what the bond pays up to the call after 2
    years, the yield to call is about -5.6 percent, and that negative rate
    is handed to [priceBond] for ["Price (Callable est)"]. *)
Lemma sampler_rates_counterexample :
  In (-200)%Z (for_indices (-200) 200 10)
  /\ gridYield (0 / 100) (-200) == 1 # 10000
  /\ ytwGrid 1000 (15 / 100) (0 / 100) 3 1 true (-200) < - (5 # 100)
  /\ ~ Forall (fun rate => 0 < rate)
         (samplerPriceBondYtms 1000 (15 / 100) (0 / 100) 3 1 true (-200)).
Proof.
  assert (E : ytwGrid 1000 (15 / 100) (0 / 100) 3 1 true (-200) < - (5 # 100)).
  { unfold ytwGrid. rewrite yieldToWorstApprox_reduced.
    vm_compute. reflexivity. }
  split; [left; reflexivity | split; [reflexivity | split; [exact E |]]].
  intros H. apply samplerPriceBondYtms_callable_last in H.
  assert (E0 : - (5 # 100) < 0) by reflexivity.
  exact (Qlt_irrefl _ (Qlt_trans _ _ _ H (Qlt_trans _ _ _ E E0))).
Qed.

(** ** Provisions *)

Lemma sameNumber_eq (a b : Q) : sameNumber a b = true -> a = b.
Proof.
  unfold sameNumber. destruct a as [p q], b as [p' q']. cbn [Qnum Qden].
  rewrite andb_true_iff, Z.eqb_eq, Pos.eqb_eq. intros [-> ->]. reflexivity.
Qed.

Lemma sameDeps_eq (d1 d2 : Deps) : sameDeps d1 d2 = true -> d1 = d2.
Proof.
  destruct d1 as [[[[[f1 c1] y1] n1] q1] b1], d2 as [[[[[f2 c2] y2] n2] q2] b2].
  unfold sameDeps. rewrite !andb_true_iff, Z.eqb_eq.
  intros [[[[[Hf Hc] Hy] Hn] ->] Hb].
  apply sameNumber_eq in Hf, Hc, Hy, Hn. apply Bool.eqb_prop in Hb.
  subst. reflexivity.
Qed.

(** [computed] is a function of the six state variables listed as the
    dependencies of [useMemo]. *)
Lemma computed_deps (s1 s2 : State) :
  depsOf s1 = depsOf s2 -> computed s1 = computed s2.
Proof.
  unfold depsOf, computed. intros H. injection H as -> -> -> -> -> ->.
  reflexivity.
Qed.

Lemma sameButProvisions_deps (s1 s2 : State) :
  sameButProvisions s1 s2 -> depsOf s1 = depsOf s2.
Proof.
  intros (Hface & Hcoupon & Hytm & Hyears & Hfreq & _ & Hcallable).
  unfold depsOf. rewrite Hface, Hcoupon, Hytm, Hyears, Hfreq, Hcallable.
  reflexivity.
Qed.

(** A render leaves a cell for the current dependencies; its value is what
    the function computes from the current state, whether the previous cell
    was reused or not. *)
Lemma render_value (prev : option Memo) (s : State) :
  memoOk prev ->
  memoDeps (render prev s) = depsOf s /\ memoValue (render prev s) = computed s.
Proof.
  intros Hprev. unfold render, useMemo.
  destruct prev as [m |]; [| split; reflexivity].
  destruct (sameDeps (memoDeps m) (depsOf s)) eqn:E; [| split; reflexivity].
  apply sameDeps_eq in E. destruct Hprev as (s' & Hd & Hv).
  split; [exact E |]. rewrite Hv. apply computed_deps. congruence.
Qed.

Lemma render_ok (prev : option Memo) (s : State) :
  memoOk prev -> memoOk (Some (render prev s)).
Proof.
  intros Hprev. destruct (render_value prev s Hprev) as [Hd Hv].
  exists s. split; [symmetry; exact Hd | exact Hv].
Qed.

Lemma renders_ok (ss : list State) : memoOk (renders ss).
Proof.
  unfold renders.
  assert (H : forall cell, memoOk cell ->
                memoOk (fold_left (fun cell s => Some (render cell s)) ss cell)).
  { induction ss as [| s ss IH]; intros cell Hcell; cbn [fold_left].
    - exact Hcell.
    - apply IH, render_ok, Hcell. }
  apply H. exact I.
Qed.

Lemma renders_snoc (ss : list State) (s : State) :
  renders (ss ++ [s]) = Some (render (renders ss) s).
Proof. unfold renders. rewrite fold_left_app. reflexivity. Qed.

(** C9.  The Putable, Sinking Fund and Convertible flags have no effect on
    any computed output: for two states that differ only in these flags the
    price, the Macaulay and modified durations, the current yield, the
    yield to worst and all 41 chart points are identical, and after any
    sequence of renders the memo shows the same value for both. *)
Theorem provisions_without_effect (s1 s2 : State) :
  sameButProvisions s1 s2 ->
  price (computed s1) = price (computed s2)
  /\ Dmac (computed s1) = Dmac (computed s2)
  /\ Dmod (computed s1) = Dmod (computed s2)
  /\ cy (computed s1) = cy (computed s2)
  /\ ytw (computed s1) = ytw (computed s2)
  /\ points (computed s1) = points (computed s2)
  /\ List.length (points (computed s1)) = 41%nat
  /\ forall history : list State,
       memoValue (render (renders (history ++ [s1])) s2)
       = memoValue (render (renders history) s1).
Proof.
  intros H. pose proof (sameButProvisions_deps s1 s2 H) as Hd.
  pose proof (computed_deps s1 s2 Hd) as E.
  rewrite E. do 6 (split; [reflexivity |]).
  split; [apply gridPoints_length |].
  intros history.
  destruct (render_value (renders (history ++ [s1])) s2 (renders_ok _)) as [_ ->].
  destruct (render_value (renders history) s1 (renders_ok _)) as [_ ->].
  symmetry. exact E.
Qed.

Lemma provisions_without_effect_witness :
  let s1 := mkState 1000 5 4 10 2 "corporate" true false false false in
  let s2 := mkState 1000 5 4 10 2 "corporate" true true true true in
  sameButProvisions s1 s2 /\ points (computed s1) = points (computed s2).
Proof.
  intros s1 s2.
  assert (H : sameButProvisions s1 s2) by (repeat split).
  split; [exact H |].
  exact (proj1 (proj2 (proj2 (proj2 (proj2 (proj2
           (provisions_without_effect s1 s2 H))))))).
Defined.

(** C10.  When [callable] is false, every one of the 41 grid points has its
    ["Price (Callable est)"] equal to its [Price]. *)
Theorem callable_series_degenerates (s : State) :
  s_callable s = false ->
  List.length (points (computed s)) = 41%nat
  /\ Forall (fun pt => PriceCallable pt = Price pt) (points (computed s)).
Proof.
  intros H. cbn [computed points]. rewrite H.
  split; [apply gridPoints_length |].
  rewrite gridPoints_map. apply Forall_map, Forall_forall.
  intros i _. reflexivity.
Qed.

Lemma callable_series_degenerates_witness :
  let s := mkState 1000 5 4 10 2 "corporate" false true false true in
  s_callable s = false
  /\ Forall (fun pt => PriceCallable pt = Price pt) (points (computed s)).
Proof.
  intros s.
  assert (H : s_callable s = false) by reflexivity.
  split; [exact H |].
  exact (proj2 (callable_series_degenerates s H)).
Defined.

(** * Further properties of the bond-math functions *)

(** ** Prices *)

Lemma pvAt_zero_periods (c F r : Q) : pvAt c F r 0 == F.
Proof.
  unfold pvAt. cbn [sumFrom1]. change ((1 + r) ^ Z.of_nat 0) with 1. field.
Qed.

Lemma pvAt_rate_ext (c F r r' : Q) (k : nat) :
  r == r' -> pvAt c F r k == pvAt c F r' k.
Proof.
  intros H. unfold pvAt.
  rewrite (sumFrom1_ext (fun t => c / (1 + r) ^ Z.of_nat t)
                        (fun t => c / (1 + r') ^ Z.of_nat t)).
  - rewrite H. reflexivity.
  - intros t. rewrite H. reflexivity.
Qed.

Lemma pvAt_ge_periods (c F r : Q) (k k' : nat) :
  0 < 1 + r -> c <= r * F -> (k <= k')%nat ->
  pvAt c F r k' <= pvAt c F r k.
Proof.
  intros Hr Hc Hk. induction Hk as [| k' Hk IH].
  - apply Qle_refl.
  - rewrite (pvAt_succ c F r k' Hr).
    assert (0 <= (r * F - c) / (1 + r) ^ Z.of_nat (S k'))
      by (apply Qle_shift_div_l; [apply Qpower_nat_pos; lra | lra]).
    assert (E : (c - r * F) / (1 + r) ^ Z.of_nat (S k')
                == - ((r * F - c) / (1 + r) ^ Z.of_nat (S k')))
      by (field; apply Qnot_eq_sym, Qlt_not_eq, Qpower_nat_pos; lra).
    lra.
Qed.

(** A bond whose coupon exceeds the interest on its redemption is worth
    more than the redemption, one whose coupon falls short is worth less. *)
Lemma pvAt_above_redemption (c F r : Q) (k : nat) :
  0 < 1 + r -> r * F < c -> F < pvAt c F r (S k).
Proof.
  intros Hr Hc.
  pose proof (pvAt_le_periods c F r 0 k Hr (Qlt_le_weak _ _ Hc) ltac:(lia)) as H.
  rewrite pvAt_zero_periods in H. rewrite (pvAt_succ c F r k Hr).
  assert (0 < (c - r * F) / (1 + r) ^ Z.of_nat (S k))
    by (apply Qlt_shift_div_l; [apply Qpower_nat_pos; lra | lra]).
  lra.
Qed.

Lemma pvAt_below_redemption (c F r : Q) (k : nat) :
  0 < 1 + r -> c < r * F -> pvAt c F r (S k) < F.
Proof.
  intros Hr Hc.
  pose proof (pvAt_ge_periods c F r 0 k Hr (Qlt_le_weak _ _ Hc) ltac:(lia)) as H.
  rewrite pvAt_zero_periods in H. rewrite (pvAt_succ c F r k Hr).
  assert (0 < (r * F - c) / (1 + r) ^ Z.of_nat (S k))
    by (apply Qlt_shift_div_l; [apply Qpower_nat_pos; lra | lra]).
  assert (E : (c - r * F) / (1 + r) ^ Z.of_nat (S k)
              == - ((r * F - c) / (1 + r) ^ Z.of_nat (S k)))
    by (field; apply Qnot_eq_sym, Qlt_not_eq, Qpower_nat_pos; lra).
  lra.
Qed.

Lemma coupon_vs_interest (face couponRate ytm : Q) (freq : Z) :
  0 < face -> (1 <= freq)%Z ->
  (ytm < couponRate ->
   ytm / inject_Z freq * face < couponRate * face / inject_Z freq)
  /\ (couponRate < ytm ->
      couponRate * face / inject_Z freq < ytm / inject_Z freq * face).
Proof.
  intros Hface Hfreq. pose proof (inject_Z_pos freq Hfreq) as Hf.
  assert (E : ytm / inject_Z freq * face == ytm * face / inject_Z freq)
    by (field; lra).
  split; intros H; rewrite E.
  - apply Qlt_shift_div_l; [lra |].
    assert (E2 : ytm * face / inject_Z freq * inject_Z freq == ytm * face)
      by (field; lra).
    rewrite E2. nra.
  - apply Qlt_shift_div_l; [lra |].
    assert (E2 : couponRate * face / inject_Z freq * inject_Z freq
                 == couponRate * face) by (field; lra).
    rewrite E2. nra.
Qed.

(** X1.  For [face > 0], [freq >= 1] and [ytm >= 0], whatever the maturity:
    a coupon rate above the yield prices the bond above [face], a coupon
    rate below the yield prices it below [face]. *)
Theorem priceBond_premium_or_discount
    (face couponRate ytm years : Q) (freq : Z) :
  0 < face -> (1 <= freq)%Z -> 0 <= ytm ->
  (ytm < couponRate ->
   face < priceBond (baseArgs face couponRate ytm years freq))
  /\ (couponRate < ytm ->
      priceBond (baseArgs face couponRate ytm years freq) < face).
Proof.
  intros Hface Hfreq Hytm.
  pose proof (inject_Z_pos freq Hfreq) as Hf.
  assert (Hr : 0 <= ytm / inject_Z freq) by (apply Qle_shift_div_l; lra).
  destruct (coupon_vs_interest face couponRate ytm freq Hface Hfreq)
    as [Hup Hdown].
  rewrite priceBond_pvAt. destruct (periods_succ years freq) as [k ->].
  split; intros H.
  - apply pvAt_above_redemption; [lra | auto].
  - apply pvAt_below_redemption; [lra | auto].
Qed.

Lemma priceBond_premium_or_discount_witness :
  (0 < 1000 /\ (1 <= 2)%Z /\ 0 <= 4 # 100 /\ 4 # 100 < 5 # 100)
  /\ 1000 < priceBond (baseArgs 1000 (5 # 100) (4 # 100) 10 2).
Proof.
  assert (Hface : 0 < 1000) by reflexivity.
  assert (Hfreq : (1 <= 2)%Z) by lia.
  assert (Hytm : 0 <= 4 # 100) by discriminate.
  assert (Hlt : 4 # 100 < 5 # 100) by reflexivity.
  split; [repeat split; assumption |].
  exact (proj1 (priceBond_premium_or_discount 1000 (5 # 100) (4 # 100) 10 2
                  Hface Hfreq Hytm) Hlt).
Defined.


Lemma sumFrom1_scale (a : Q) (f : nat -> Q) (k : nat) :
  sumFrom1 (fun t => a * f t) k == a * sumFrom1 f k.
Proof.
  induction k as [| k IH]; cbn [sumFrom1].
  - ring.
  - rewrite IH. ring.
Qed.


Lemma pvAt_scale (a c F r : Q) (k : nat) :
  pvAt (a * c) (a * F) r k == a * pvAt c F r k.
Proof.
  unfold pvAt.
  rewrite (sumFrom1_ext _ (fun t => a * (c / (1 + r) ^ Z.of_nat t))).
  - rewrite sumFrom1_scale. unfold Qdiv. ring.
  - intros t. unfold Qdiv. ring.
Qed.



(** X3.  The price is proportional to the face value: for [freq >= 1] and
    [1 + ytm/freq <> 0], multiplying [face] by [a] multiplies the price by
    [a]. *)
Theorem priceBond_proportional_to_face
    (a face couponRate ytm years : Q) (freq : Z) :
  (1 <= freq)%Z -> ~ 1 + ytm / inject_Z freq == 0 ->
  priceBond (baseArgs (a * face) couponRate ytm years freq)
  == a * priceBond (baseArgs face couponRate ytm years freq).
Proof.
  intros Hfreq Hden. rewrite !priceBond_pvAt.
  rewrite (pvAt_coupon_ext _ (a * (couponRate * face / inject_Z freq))).
  - apply pvAt_scale.
  - unfold Qdiv. ring.
Qed.

Lemma priceBond_proportional_to_face_witness :
  ((1 <= 2)%Z /\ ~ 1 + (4 # 100) / inject_Z 2 == 0)
  /\ priceBond (baseArgs (3 * 1000) (5 # 100) (4 # 100) 10 2)
     == 3 * priceBond (baseArgs 1000 (5 # 100) (4 # 100) 10 2).
Proof.
  assert (Hfreq : (1 <= 2)%Z) by lia.
  assert (Hden : ~ 1 + (4 # 100) / inject_Z 2 == 0) by discriminate.
  split; [split; assumption |].
  exact (priceBond_proportional_to_face 3 1000 (5 # 100) (4 # 100) 10 2
           Hfreq Hden).
Defined.

Lemma sumFrom1_lt (f g : nat -> Q) (k : nat) :
  (forall t, (1 <= t <= S k)%nat -> f t < g t) ->
  sumFrom1 f (S k) < sumFrom1 g (S k).
Proof.
  intros H. cbn [sumFrom1].
  assert (sumFrom1 f k <= sumFrom1 g k)
    by (apply sumFrom1_le; intros; apply Qlt_le_weak, H; lia).
  assert (f (S k) < g (S k)) by (apply H; lia).
  lra.
Qed.

(** X4.  For [face > 0], [freq >= 1] and [ytm >= 0] the price is strictly
    increasing in the coupon rate. *)
Theorem priceBond_increasing_in_coupon
    (face ytm years : Q) (freq : Z) (rate1 rate2 : Q) :
  0 < face -> (1 <= freq)%Z -> 0 <= ytm -> rate1 < rate2 ->
  priceBond (baseArgs face rate1 ytm years freq)
  < priceBond (baseArgs face rate2 ytm years freq).
Proof.
  intros Hface Hfreq Hytm Hlt.
  pose proof (inject_Z_pos freq Hfreq) as Hf.
  assert (Hr : 0 <= ytm / inject_Z freq) by (apply Qle_shift_div_l; lra).
  rewrite !priceBond_pvAt. destruct (periods_succ years freq) as [k ->].
  unfold pvAt.
  assert (Hc : rate1 * face / inject_Z freq < rate2 * face / inject_Z freq).
  { unfold Qdiv. apply Qmult_lt_compat_r; [apply Qinv_lt_0_compat; lra | nra]. }
  assert (sumFrom1 (fun t => rate1 * face / inject_Z freq
                             / (1 + ytm / inject_Z freq) ^ Z.of_nat t) (S k)
          < sumFrom1 (fun t => rate2 * face / inject_Z freq
                               / (1 + ytm / inject_Z freq) ^ Z.of_nat t) (S k)).
  { apply sumFrom1_lt. intros t _. unfold Qdiv at 1 3.
    apply Qmult_lt_compat_r; [| exact Hc].
    apply Qinv_lt_0_compat, Qpower_nat_pos. lra. }
  lra.
Qed.

Lemma priceBond_increasing_in_coupon_witness :
  (0 < 1000 /\ (1 <= 2)%Z /\ 0 <= 4 # 100 /\ 3 # 100 < 5 # 100)
  /\ priceBond (baseArgs 1000 (3 # 100) (4 # 100) 10 2)
     < priceBond (baseArgs 1000 (5 # 100) (4 # 100) 10 2).
Proof.
  assert (Hface : 0 < 1000) by reflexivity.
  assert (Hfreq : (1 <= 2)%Z) by lia.
  assert (Hytm : 0 <= 4 # 100) by discriminate.
  assert (Hlt : 3 # 100 < 5 # 100) by reflexivity.
  split; [repeat split; assumption |].
  exact (priceBond_increasing_in_coupon 1000 (4 # 100) 10 2 (3 # 100) (5 # 100)
           Hface Hfreq Hytm Hlt).
Defined.

(** X5.  For [face > 0], [couponRate >= 0] and [freq >= 1] the price falls
    strictly as the yield rises over the whole range [ytm > -freq], negative
    yields included. *)
Theorem price_falls_above_minus_freq
    (face couponRate years : Q) (freq : Z) (ytm1 ytm2 : Q) :
  0 < face -> 0 <= couponRate -> (1 <= freq)%Z ->
  - inject_Z freq < ytm1 -> ytm1 < ytm2 ->
  priceBond (baseArgs face couponRate ytm2 years freq)
  < priceBond (baseArgs face couponRate ytm1 years freq).
Proof.
  intros Hface Hcoupon Hfreq Hlow Hlt.
  pose proof (inject_Z_pos freq Hfreq) as Hf.
  assert (Hinv : 0 < / inject_Z freq) by (apply Qinv_lt_0_compat; lra).
  rewrite !priceBond_pvAt. destruct (periods_succ years freq) as [k ->].
  apply pvAt_decreasing.
  - apply Qle_shift_div_l; [lra | nra].
  - exact Hface.
  - assert (- (1) < ytm1 / inject_Z freq).
    { apply Qlt_shift_div_l; [lra |]. lra. }
    lra.
  - unfold Qdiv. apply Qmult_lt_compat_r; assumption.
Qed.

Lemma price_falls_above_minus_freq_witness :
  (0 < 1000 /\ 0 <= 5 # 100 /\ (1 <= 2)%Z
   /\ - inject_Z 2 < - (1 # 2) /\ - (1 # 2) < - (1 # 4))
  /\ priceBond (baseArgs 1000 (5 # 100) (- (1 # 4)) 1 2)
     < priceBond (baseArgs 1000 (5 # 100) (- (1 # 2)) 1 2).
Proof.
  assert (Hface : 0 < 1000) by reflexivity.
  assert (Hcoupon : 0 <= 5 # 100) by discriminate.
  assert (Hfreq : (1 <= 2)%Z) by lia.
  assert (Hlow : - inject_Z 2 < - (1 # 2)) by reflexivity.
  assert (Hlt : - (1 # 2) < - (1 # 4)) by reflexivity.
  split; [repeat split; assumption |].
  exact (price_falls_above_minus_freq 1000 (5 # 100) 1 2 (- (1 # 2))
           (- (1 # 4)) Hface Hcoupon Hfreq Hlow Hlt).
Defined.

(** ** Periods *)



(** ** Durations *)

Lemma for_loop_sum (g : Z -> Q) (k : nat) :
  for_loop 1 (Z.of_nat k) 1 (fun t acc => acc + g t) 0
  = sumFrom1 (fun t => g (Z.of_nat t)) k.
Proof.
  induction k as [| k IH].
  - apply for_loop_from_1_zero.
  - rewrite for_loop_from_1_succ, IH. reflexivity.
Qed.


(** The numerator of the Macaulay duration as a sum over the periods. *)
Lemma macaulayDuration_sum (face couponRate ytm years : Q) (freq : Z) :
  macaulayDuration (baseArgs face couponRate ytm years freq)
  = sumFrom1
      (fun t =>
         inject_Z (Z.of_nat t) / inject_Z freq
         * (if (Z.of_nat t =? periods years freq)%Z
            then couponRate * face / inject_Z freq + face
            else couponRate * face / inject_Z freq)
         / (1 + ytm / inject_Z freq) ^ Z.of_nat t)
      (Z.to_nat (periods years freq))
    / priceBond (baseArgs face couponRate ytm years freq).
Proof.
  rewrite macaulayDuration_unfold.
  rewrite <- (periods_nat years freq) at 1.
  rewrite (for_loop_sum
             (fun t => inject_Z t / inject_Z freq
                       * (if (t =? periods years freq)%Z
                          then couponRate * face / inject_Z freq + face
                          else couponRate * face / inject_Z freq)
                       / Math_pow (1 + ytm / inject_Z freq) t)).
  reflexivity.
Qed.








(** X9.  The Macaulay duration does not depend on the face value: for
    [a <> 0], [freq >= 1], [1 + ytm/freq <> 0] and a price that is not zero,
    multiplying [face] by [a] leaves it unchanged. *)
Theorem macaulayDuration_independent_of_face
    (a face couponRate ytm years : Q) (freq : Z) :
  ~ a == 0 -> (1 <= freq)%Z -> ~ 1 + ytm / inject_Z freq == 0 ->
  ~ priceBond (baseArgs face couponRate ytm years freq) == 0 ->
  macaulayDuration (baseArgs (a * face) couponRate ytm years freq)
  == macaulayDuration (baseArgs face couponRate ytm years freq).
Proof.
  intros Ha Hfreq Hden Hprice.
  rewrite !macaulayDuration_sum.
  assert (Hp : priceBond (baseArgs (a * face) couponRate ytm years freq)
               == a * priceBond (baseArgs face couponRate ytm years freq)).
  { rewrite !priceBond_pvAt.
    rewrite (pvAt_coupon_ext _ (a * (couponRate * face / inject_Z freq))).
    - apply pvAt_scale.
    - unfold Qdiv. ring. }
  rewrite Hp.
  rewrite (sumFrom1_ext
             (fun t => inject_Z (Z.of_nat t) / inject_Z freq
                       * (if (Z.of_nat t =? periods years freq)%Z
                          then couponRate * (a * face) / inject_Z freq + a * face
                          else couponRate * (a * face) / inject_Z freq)
                       / (1 + ytm / inject_Z freq) ^ Z.of_nat t)
             (fun t => a * (inject_Z (Z.of_nat t) / inject_Z freq
                            * (if (Z.of_nat t =? periods years freq)%Z
                               then couponRate * face / inject_Z freq + face
                               else couponRate * face / inject_Z freq)
                            / (1 + ytm / inject_Z freq) ^ Z.of_nat t))).
  - rewrite sumFrom1_scale. field. split; assumption.
  - intros t. destruct (Z.of_nat t =? periods years freq)%Z;
      unfold Qdiv; ring.
Qed.

Lemma macaulayDuration_independent_of_face_witness :
  (~ 3 == 0 /\ (1 <= 2)%Z /\ ~ 1 + (4 # 100) / inject_Z 2 == 0
   /\ ~ priceBond (baseArgs 1000 (5 # 100) (4 # 100) 1 2) == 0)
  /\ macaulayDuration (baseArgs (3 * 1000) (5 # 100) (4 # 100) 1 2)
     == macaulayDuration (baseArgs 1000 (5 # 100) (4 # 100) 1 2).
Proof.
  assert (Ha : ~ 3 == 0) by discriminate.
  assert (Hfreq : (1 <= 2)%Z) by lia.
  assert (Hden : ~ 1 + (4 # 100) / inject_Z 2 == 0) by discriminate.
  assert (Hprice : ~ priceBond (baseArgs 1000 (5 # 100) (4 # 100) 1 2) == 0)
    by (vm_compute; discriminate).
  split; [repeat split; assumption |].
  exact (macaulayDuration_independent_of_face 3 1000 (5 # 100) (4 # 100) 1 2
           Ha Hfreq Hden Hprice).
Defined.

(** ** The search of [yieldToWorstApprox] *)

(** The search keeps a root of the present value between its bounds. *)
Lemma bisect_keeps_root (c F target root : Q) (k j : nat) (b : Q * Q) :
  0 <= c -> 0 < F ->
  pvAt c F root (S k) == target ->
  0 < 1 + fst b -> fst b < root -> root <= snd b ->
  let b' := Nat.iter j (bisect_spec (fun r => pvAt c F r (S k)) target) b in
  0 < 1 + fst b' /\ fst b' < root /\ root <= snd b'.
Proof.
  intros Hc HF Hroot H1 Hlo Hhi. induction j as [| j IH].
  - cbn [Nat.iter nat_rect]. auto.
  - rewrite Nat.iter_succ. cbv zeta in IH |- *.
    destruct (Nat.iter j _ b) as [lo hi]. cbn [fst snd] in IH.
    destruct IH as (H1' & Hlo' & Hhi').
    assert (Hmid : lo <= (lo + hi) / 2)
      by (apply Qle_shift_div_l; [reflexivity | lra]).
    unfold bisect_spec. cbn [fst snd].
    destruct (Qlt_le_dec target (pvAt c F ((lo + hi) / 2) (S k)))
      as [Hgt | Hle]; cbn [fst snd].
    + split; [lra | split; [| exact Hhi']].
      destruct (Qlt_le_dec ((lo + hi) / 2) root) as [Hlt | Hge]; [exact Hlt |].
      pose proof (pvAt_nonincreasing c F root ((lo + hi) / 2) (S k) Hc
                    (Qlt_le_weak _ _ HF) ltac:(lra) Hge).
      lra.
    + split; [exact H1' | split; [exact Hlo' |]].
      destruct (Qlt_le_dec ((lo + hi) / 2) root) as [Hlt | Hge]; [| exact Hge].
      pose proof (pvAt_decreasing c F ((lo + hi) / 2) root k Hc HF
                    ltac:(lra) Hlt).
      lra.
Qed.

Lemma search_half_width :
  (1 - - (99 # 100)) / 2 ^ Z.of_nat 60 / 2 == (199 # 100) / 2 ^ 61.
Proof. vm_compute. reflexivity. Qed.

(** The rate found by the search is within half the last interval of any
    root that lies between the initial bounds. *)
Lemma callRate_near_root
    (face couponRate ytm years : Q) (freq : Z) (callYears callPrice root : Q) :
  0 <= couponRate -> 0 <= face -> 0 < callPrice -> (1 <= freq)%Z ->
  - (99 # 100) < root -> root <= 1 ->
  pvAt (couponRate * face / inject_Z freq) callPrice root
       (Z.to_nat (periods callYears freq))
    == priceBond (baseArgs face couponRate ytm years freq) ->
  let r := callRate_spec face couponRate ytm years freq callYears callPrice in
  r - (199 # 100) / 2 ^ 61 < root /\ root <= r + (199 # 100) / 2 ^ 61.
Proof.
  intros Hcoupon Hface Hcall Hfreq Hlo Hhi Hroot r.
  pose proof (inject_Z_pos freq Hfreq) as Hf.
  assert (Hc : 0 <= couponRate * face / inject_Z freq)
    by (apply Qle_shift_div_l; [lra | nra]).
  subst r. unfold callRate_spec. cbv zeta.
  fold (periods callYears freq).
  rewrite priceBond_unfold in Hroot.
  destruct (periods_succ callYears freq) as [k Hk]. rewrite Hk in *.
  pose proof (bisect_keeps_root _ callPrice _ root k 60 (- (99 # 100), 1)
                Hc Hcall Hroot eq_refl Hlo Hhi) as Hkeep.
  pose proof (bisect_bracket
                (fun r => pvAt (couponRate * face / inject_Z freq) callPrice r (S k))
                (priceBond_spec face couponRate ytm years freq)
                (- (99 # 100)) 1 60) as Hbr.
  cbv zeta in Hkeep, Hbr.
  destruct (Nat.iter 60 _ _) as [lo hi]. cbn [fst snd] in *.
  destruct Hkeep as (_ & Hl & Hh).
  destruct Hbr as (_ & _ & _ & Hw); [discriminate |].
  pose proof search_half_width as Hhalf. rewrite <- Hw in Hhalf.
  assert (Hm : (lo + hi) / 2 == lo + (hi - lo) / 2) by field.
  assert (E : (hi - lo) / 2 + (hi - lo) / 2 == hi - lo) by field.
  rewrite Hm, <- Hhalf. clear Hw Hhalf Hm Hroot. split; lra.
Qed.

(** X10.  When the present value to the call date has a root in
    [(-0.99, 1]] for the market price ([couponRate >= 0], [face >= 0],
    [callPrice > 0], [freq >= 1]), the rate found by the 60 bisection steps
    is within [1.99/2^61] of that root. *)
Theorem search_converges_to_root
    (face couponRate ytm years : Q) (freq : Z) (callYears callPrice root : Q) :
  0 <= couponRate -> 0 <= face -> 0 < callPrice -> (1 <= freq)%Z ->
  - (99 # 100) < root -> root <= 1 ->
  pvAt (couponRate * face / inject_Z freq) callPrice root
       (Z.to_nat (periods callYears freq))
    == priceBond (baseArgs face couponRate ytm years freq) ->
  let r := callRate_spec face couponRate ytm years freq callYears callPrice in
  yieldToWorstApprox
    (callArgs face couponRate ytm years freq true callYears callPrice)
    = Qmin ytm (Qmax (- (99 # 100)) ((1 + r) ^ freq - 1))
  /\ r - (199 # 100) / 2 ^ 61 < root
  /\ root <= r + (199 # 100) / 2 ^ 61.
Proof.
  intros Hcoupon Hface Hcall Hfreq Hlo Hhi Hroot r.
  split; [apply yieldToWorstApprox_callable |].
  apply callRate_near_root; assumption.
Qed.

Lemma search_converges_to_root_witness :
  (0 <= 5 # 100 /\ 0 <= 1000 /\ 0 < 1000 /\ (1 <= 2)%Z
   /\ - (99 # 100) < 2 # 100 /\ 2 # 100 <= 1)
  /\ callRate_spec 1000 (5 # 100) (4 # 100) 1 2 1 1000 - (199 # 100) / 2 ^ 61
     < 2 # 100.
Proof.
  assert (Hcoupon : 0 <= 5 # 100) by discriminate.
  assert (Hface : 0 <= 1000) by discriminate.
  assert (Hcall : 0 < 1000) by reflexivity.
  assert (Hfreq : (1 <= 2)%Z) by lia.
  assert (Hlo : - (99 # 100) < 2 # 100) by reflexivity.
  assert (Hhi : 2 # 100 <= 1) by discriminate.
  assert (Hroot : pvAt ((5 # 100) * 1000 / inject_Z 2) 1000 (2 # 100)
                       (Z.to_nat (periods 1 2))
                  == priceBond (baseArgs 1000 (5 # 100) (4 # 100) 1 2))
    by (vm_compute; reflexivity).
  split; [repeat split; assumption |].
  exact (proj1 (proj2 (search_converges_to_root 1000 (5 # 100) (4 # 100) 1 2
                         1 1000 (2 # 100)
                         Hcoupon Hface Hcall Hfreq Hlo Hhi Hroot))).
Defined.



(** A target below every present value pushes the lower bound up at every
    step; a target at or above every present value pulls the upper bound
    down. *)
Lemma bisect_upper_stays (c F target hi0 : Q) (n j : nat) (b : Q * Q) :
  0 <= c -> 0 <= F -> target < pvAt c F hi0 n ->
  0 < 1 + fst b -> fst b <= hi0 -> snd b = hi0 ->
  let b' := Nat.iter j (bisect_spec (fun r => pvAt c F r n) target) b in
  0 < 1 + fst b' /\ fst b' <= hi0 /\ snd b' = hi0.
Proof.
  intros Hc HF Htarget H1 Hle Hhi. induction j as [| j IH].
  - cbn [Nat.iter nat_rect]. auto.
  - rewrite Nat.iter_succ. cbv zeta in IH |- *.
    destruct (Nat.iter j _ b) as [lo hi]. cbn [fst snd] in IH.
    destruct IH as (H1' & Hle' & ->).
    assert (Hmid : lo <= (lo + hi0) / 2)
      by (apply Qle_shift_div_l; [reflexivity | lra]).
    assert (Hmid' : (lo + hi0) / 2 <= hi0)
      by (apply Qle_shift_div_r; [reflexivity | lra]).
    unfold bisect_spec. cbn [fst snd].
    destruct (Qlt_le_dec target (pvAt c F ((lo + hi0) / 2) n)) as [Hgt | Hle2];
      cbn [fst snd].
    + repeat split; [lra | exact Hmid'].
    + pose proof (pvAt_nonincreasing c F ((lo + hi0) / 2) hi0 n Hc HF
                    ltac:(lra) Hmid').
      lra.
Qed.

Lemma bisect_lower_stays (c F target lo0 : Q) (n j : nat) (b : Q * Q) :
  0 <= c -> 0 <= F -> 0 < 1 + lo0 -> pvAt c F lo0 n <= target ->
  fst b = lo0 -> lo0 <= snd b ->
  let b' := Nat.iter j (bisect_spec (fun r => pvAt c F r n) target) b in
  fst b' = lo0 /\ lo0 <= snd b'.
Proof.
  intros Hc HF H1 Htarget Hlo Hle. induction j as [| j IH].
  - cbn [Nat.iter nat_rect]. auto.
  - rewrite Nat.iter_succ. cbv zeta in IH |- *.
    destruct (Nat.iter j _ b) as [lo hi]. cbn [fst snd] in IH.
    destruct IH as (-> & Hle').
    assert (Hmid : lo0 <= (lo0 + hi) / 2)
      by (apply Qle_shift_div_l; [reflexivity | lra]).
    unfold bisect_spec. cbn [fst snd].
    destruct (Qlt_le_dec target (pvAt c F ((lo0 + hi) / 2) n)) as [Hgt | Hle2];
      cbn [fst snd].
    + pose proof (pvAt_nonincreasing c F lo0 ((lo0 + hi) / 2) n Hc HF H1 Hmid).
      lra.
    + split; [reflexivity | exact Hmid].
Qed.

(** X12.  Without a root between the bounds the search ends next to a
    bound ([couponRate >= 0], [face >= 0], [callPrice >= 0], [freq >= 1]):
    for a market price below the present value at the rate 1.0 it returns
    [1 - 1.99/2^61], for a market price at or above the present value at the
    rate -0.99 it returns [-0.99 + 1.99/2^61]. *)
Theorem search_saturates
    (face couponRate ytm years : Q) (freq : Z) (callYears callPrice : Q) :
  0 <= couponRate -> 0 <= face -> 0 <= callPrice -> (1 <= freq)%Z ->
  let c := couponRate * face / inject_Z freq in
  let n := Z.to_nat (periods callYears freq) in
  let marketPrice := priceBond (baseArgs face couponRate ytm years freq) in
  let r := callRate_spec face couponRate ytm years freq callYears callPrice in
  (marketPrice < pvAt c callPrice 1 n -> r == 1 - (199 # 100) / 2 ^ 61)
  /\ (pvAt c callPrice (- (99 # 100)) n <= marketPrice ->
      r == - (99 # 100) + (199 # 100) / 2 ^ 61).
Proof.
  intros Hcoupon Hface Hcall Hfreq c n marketPrice r.
  pose proof (inject_Z_pos freq Hfreq) as Hf.
  assert (Hc : 0 <= c) by (subst c; apply Qle_shift_div_l; [lra | nra]).
  subst r marketPrice. unfold callRate_spec. cbv zeta.
  fold (periods callYears freq). fold c n. rewrite priceBond_unfold.
  pose proof (bisect_bracket (fun r => pvAt c callPrice r n)
                (priceBond_spec face couponRate ytm years freq)
                (- (99 # 100)) 1 60) as Hbr.
  cbv zeta in Hbr.
  pose proof search_half_width as Hhalf.
  split; intros H.
  - pose proof (bisect_upper_stays c callPrice _ 1 n 60 (- (99 # 100), 1)
                  Hc Hcall H eq_refl ltac:(discriminate) eq_refl) as Hs.
    cbv zeta in Hs.
    destruct (Nat.iter 60 _ _) as [lo hi]. cbn [fst snd] in *.
    destruct Hs as (_ & _ & ->).
    destruct Hbr as (_ & _ & _ & Hw); [discriminate |].
    rewrite <- Hw in Hhalf.
    assert (Hm : (lo + 1) / 2 == 1 - (1 - lo) / 2) by field.
    rewrite Hm, <- Hhalf. reflexivity.
  - pose proof (bisect_lower_stays c callPrice _ (- (99 # 100)) n 60
                  (- (99 # 100), 1) Hc Hcall eq_refl H eq_refl
                  ltac:(discriminate)) as Hs.
    cbv zeta in Hs.
    destruct (Nat.iter 60 _ _) as [lo hi]. cbn [fst snd] in *.
    destruct Hs as (-> & _).
    destruct Hbr as (_ & _ & _ & Hw); [discriminate |].
    rewrite <- Hw in Hhalf.
    assert (Hm : (- (99 # 100) + hi) / 2
                 == - (99 # 100) + (hi - - (99 # 100)) / 2) by field.
    rewrite Hm, <- Hhalf. reflexivity.
Qed.

Lemma search_saturates_witness :
  (0 <= 5 # 100 /\ 0 <= 1000 /\ 0 <= 1000 /\ (1 <= 1)%Z
   /\ priceBond (baseArgs 1000 (5 # 100) 3 2 1)
      < pvAt ((5 # 100) * 1000 / inject_Z 1) 1000 1 (Z.to_nat (periods 2 1)))
  /\ callRate_spec 1000 (5 # 100) 3 2 1 2 1000 == 1 - (199 # 100) / 2 ^ 61.
Proof.
  assert (Hcoupon : 0 <= 5 # 100) by discriminate.
  assert (Hface : 0 <= 1000) by discriminate.
  assert (Hfreq : (1 <= 1)%Z) by lia.
  assert (H : priceBond (baseArgs 1000 (5 # 100) 3 2 1)
              < pvAt ((5 # 100) * 1000 / inject_Z 1) 1000 1
                     (Z.to_nat (periods 2 1))) by (vm_compute; reflexivity).
  split; [repeat split; assumption |].
  exact (proj1 (search_saturates 1000 (5 # 100) 3 2 1 2 1000
                  Hcoupon Hface Hface Hfreq) H).
Defined.

(** While the present value at the rate [r0] is at least the target, the
    upper bound of the search stays at or above [r0]. *)
Lemma bisect_upper_bound (c F target r0 : Q) (k j : nat) (b : Q * Q) :
  0 <= c -> 0 < F ->
  target <= pvAt c F r0 (S k) ->
  0 < 1 + fst b -> fst b <= snd b -> r0 <= snd b ->
  let b' := Nat.iter j (bisect_spec (fun r => pvAt c F r (S k)) target) b in
  0 < 1 + fst b' /\ fst b' <= snd b' /\ r0 <= snd b'.
Proof.
  intros Hc HF Hpv H1 Hle Hhi. induction j as [| j IH].
  - cbn [Nat.iter nat_rect]. auto.
  - rewrite Nat.iter_succ. cbv zeta in IH |- *.
    destruct (Nat.iter j _ b) as [lo hi]. cbn [fst snd] in IH.
    destruct IH as (H1' & Hle' & Hhi').
    assert (Hmid : lo <= (lo + hi) / 2)
      by (apply Qle_shift_div_l; [reflexivity | lra]).
    assert (Hmid' : (lo + hi) / 2 <= hi)
      by (apply Qle_shift_div_r; [reflexivity | lra]).
    unfold bisect_spec. cbn [fst snd].
    destruct (Qlt_le_dec target (pvAt c F ((lo + hi) / 2) (S k)))
      as [Hgt | Hle2]; cbn [fst snd].
    + repeat split; [lra | exact Hmid' | exact Hhi'].
    + split; [exact H1' | split; [exact Hmid |]].
      destruct (Qlt_le_dec ((lo + hi) / 2) r0) as [Hlt | Hge]; [| exact Hge].
      pose proof (pvAt_decreasing c F ((lo + hi) / 2) r0 k Hc HF
                    ltac:(lra) Hlt).
      lra.
Qed.

(** X13.  For a callable bond at or below par ([callPrice = face > 0],
    [freq >= 1], [callYears <= years], [0 <= couponRate <= ytm <= freq]) the
    per-period rate found by the search is above [ytm/freq - 1.99/2^61]: the
    call does not lower the yield by more than the search tolerance. *)
Theorem search_rate_at_or_below_par
    (face couponRate ytm years : Q) (freq : Z) (callYears : Q) :
  0 < face -> (1 <= freq)%Z -> callYears <= years ->
  0 <= couponRate -> couponRate <= ytm -> ytm <= inject_Z freq ->
  ytm / inject_Z freq - (199 # 100) / 2 ^ 61
  <= callRate_spec face couponRate ytm years freq callYears face.
Proof.
  intros Hface Hfreq Hcall Hcoupon Hle Hmax.
  pose proof (inject_Z_pos freq Hfreq) as Hf.
  unfold callRate_spec, priceBond_spec. cbv zeta.
  fold (periods years freq) (periods callYears freq).
  set (c := couponRate * face / inject_Z freq).
  set (r0 := ytm / inject_Z freq).
  assert (Hr0 : 0 <= r0) by (apply Qle_shift_div_l; lra).
  assert (Hr1 : r0 <= 1) by (apply Qle_shift_div_r; lra).
  assert (Hc : c <= r0 * face).
  { subst r0 c.
    assert (E : ytm / inject_Z freq * face == ytm * face / inject_Z freq)
      by (field; lra).
    rewrite E. unfold Qdiv. apply Qmult_le_compat_r; [nra |].
    apply Qlt_le_weak, Qinv_lt_0_compat. lra. }
  assert (Hc0 : 0 <= c) by (subst c; apply Qle_shift_div_l; [lra | nra]).
  assert (Hpv : pvAt c face r0 (Z.to_nat (periods years freq))
                <= pvAt c face r0 (Z.to_nat (periods callYears freq))).
  { apply pvAt_ge_periods; [lra | exact Hc |].
    apply periods_monotone; assumption. }
  destruct (periods_succ callYears freq) as [k Hk]. rewrite Hk in *.
  pose proof (bisect_upper_bound c face _ r0 k 60 (- (99 # 100), 1)
                Hc0 Hface Hpv eq_refl ltac:(discriminate) Hr1) as Hub.
  pose proof (bisect_bracket (fun r => pvAt c face r (S k))
                (pvAt c face r0 (Z.to_nat (periods years freq)))
                (- (99 # 100)) 1 60) as Hbr.
  cbv zeta in Hub, Hbr.
  destruct (Nat.iter 60 _ _) as [lo hi]. cbn [fst snd] in *.
  destruct Hub as (_ & _ & Hh).
  destruct Hbr as (_ & _ & _ & Hw); [discriminate |].
  pose proof search_half_width as Hhalf. rewrite <- Hw in Hhalf.
  assert (Hm : (lo + hi) / 2 == hi - (hi - lo) / 2) by field.
  rewrite Hm, <- Hhalf. clear Hw Hhalf Hm Hpv. lra.
Qed.

Lemma search_rate_at_or_below_par_witness :
  (0 < 1000 /\ (1 <= 2)%Z /\ 5 <= 10 /\ 0 <= 4 # 100
   /\ 4 # 100 <= 5 # 100 /\ 5 # 100 <= inject_Z 2)
  /\ (5 # 100) / inject_Z 2 - (199 # 100) / 2 ^ 61
     <= callRate_spec 1000 (4 # 100) (5 # 100) 10 2 5 1000.
Proof.
  assert (Hface : 0 < 1000) by reflexivity.
  assert (Hfreq : (1 <= 2)%Z) by lia.
  assert (Hcall : 5 <= 10) by discriminate.
  assert (Hcoupon : 0 <= 4 # 100) by discriminate.
  assert (Hle : 4 # 100 <= 5 # 100) by discriminate.
  assert (Hmax : 5 # 100 <= inject_Z 2) by discriminate.
  split; [repeat split; assumption |].
  exact (search_rate_at_or_below_par 1000 (4 # 100) (5 # 100) 10 2 5
           Hface Hfreq Hcall Hcoupon Hle Hmax).
Defined.

(** ** Yield to worst *)

(** X14.  Whatever the arguments object, present or defaulted,
    [yieldToWorstApprox] never returns more than the yield it was given,
    and never less than -0.99 unless that yield is itself below -0.99. *)
Theorem yieldToWorstApprox_range (a : Args) :
  let y := dflt (5 # 100) (ytm a) in
  yieldToWorstApprox a <= y
  /\ (- (99 # 100) <= y -> - (99 # 100) <= yieldToWorstApprox a).
Proof.
  intros y. unfold yieldToWorstApprox. fold y.
  destruct (negb (dflt false (callable a))).
  - split; [apply Qle_refl | auto].
  - destruct (for_loop_lt 0 60 1 _ _) as [lo hi].
    split; [apply Q.le_min_l |].
    intros Hy. apply Q.min_glb; [exact Hy | apply Q.le_max_l].
Qed.

Lemma yieldToWorstApprox_range_witness :
  let a := callArgs 1000 (5 # 100) (4 # 100) 10 2 true 5 1000 in
  - (99 # 100) <= dflt (5 # 100) (ytm a)
  /\ - (99 # 100) <= yieldToWorstApprox a.
Proof.
  intros a.
  assert (H : - (99 # 100) <= dflt (5 # 100) (ytm a)) by discriminate.
  split; [exact H |].
  exact (proj2 (yieldToWorstApprox_range a) H).
Defined.

Lemma bisect_spec_same_decisions (pv1 pv2 : Q -> Q) (t1 t2 : Q) (b : Q * Q) :
  (forall r, t1 < pv1 r <-> t2 < pv2 r) ->
  bisect_spec pv1 t1 b = bisect_spec pv2 t2 b.
Proof.
  intros H. unfold bisect_spec.
  destruct (Qlt_le_dec t1 (pv1 ((fst b + snd b) / 2))) as [H1 | H1],
           (Qlt_le_dec t2 (pv2 ((fst b + snd b) / 2))) as [H2 | H2];
    try reflexivity.
  - apply H in H1. lra.
  - apply H in H2. lra.
Qed.

(** X15.  The yield to worst does not depend on the size of the bond: for
    [a > 0] and [freq >= 1], multiplying both [face] and [callPrice] by [a]
    leaves the result of [yieldToWorstApprox] the same. *)
Theorem yieldToWorstApprox_independent_of_size
    (a face couponRate ytm years : Q) (freq : Z) (callable : bool)
    (callYears callPrice : Q) :
  0 < a -> (1 <= freq)%Z ->
  yieldToWorstApprox
    (callArgs (a * face) couponRate ytm years freq callable callYears
              (a * callPrice))
  = yieldToWorstApprox
      (callArgs face couponRate ytm years freq callable callYears callPrice).
Proof.
  intros Ha Hfreq. destruct callable; [| reflexivity].
  rewrite !yieldToWorstApprox_callable.
  unfold yieldToWorst_spec, callRate_spec. cbv zeta.
  rewrite <- !priceBond_unfold.
  set (n := Z.to_nat (Z.max 1 (Math_round (callYears * inject_Z freq)))).
  rewrite (iter_ext
             (bisect_spec
                (fun r => pvAt (couponRate * (a * face) / inject_Z freq)
                               (a * callPrice) r n)
                (priceBond (baseArgs (a * face) couponRate ytm years freq)))
             (bisect_spec
                (fun r => pvAt (couponRate * face / inject_Z freq) callPrice r n)
                (priceBond (baseArgs face couponRate ytm years freq)))).
  - reflexivity.
  - intros b. apply bisect_spec_same_decisions. intros r.
    assert (E1 : pvAt (couponRate * (a * face) / inject_Z freq)
                      (a * callPrice) r n
                 == a * pvAt (couponRate * face / inject_Z freq) callPrice r n).
    { rewrite (pvAt_coupon_ext _ (a * (couponRate * face / inject_Z freq))).
      - apply pvAt_scale.
      - unfold Qdiv. ring. }
    assert (E2 : priceBond (baseArgs (a * face) couponRate ytm years freq)
                 == a * priceBond (baseArgs face couponRate ytm years freq)).
    { rewrite !priceBond_pvAt.
      rewrite (pvAt_coupon_ext _ (a * (couponRate * face / inject_Z freq))).
      - apply pvAt_scale.
      - unfold Qdiv. ring. }
    rewrite E1, E2. split; intros H; nra.
Qed.

Lemma yieldToWorstApprox_independent_of_size_witness :
  (0 < 3 /\ (1 <= 2)%Z)
  /\ yieldToWorstApprox
       (callArgs (3 * 1000) (5 # 100) (4 # 100) 10 2 true 5 (3 * 1000))
     = yieldToWorstApprox
         (callArgs 1000 (5 # 100) (4 # 100) 10 2 true 5 1000).
Proof.
  assert (Ha : 0 < 3) by reflexivity.
  assert (Hfreq : (1 <= 2)%Z) by lia.
  split; [split; assumption |].
  exact (yieldToWorstApprox_independent_of_size 3 1000 (5 # 100) (4 # 100)
           10 2 true 5 1000 Ha Hfreq).
Defined.

(** ** The call date chosen by the component *)

(** X16.  The call date that [computed] hands to [yieldToWorstApprox] never
    exceeds the maturity and is positive when the maturity is; for
    maturities up to 2 years it is the maturity itself, and from 2 years on
    it is a whole number of years, at least 2. *)
Theorem midCallYears_range (years : Q) :
  midCallYears years <= years
  /\ (0 < years -> 0 < midCallYears years)
  /\ (years <= 2 -> midCallYears years = years)
  /\ (2 <= years ->
      2 <= midCallYears years
      /\ exists z : Z, midCallYears years == inject_Z z).
Proof.
  unfold midCallYears, Math_min, Math_max.
  split; [apply Q.le_min_l | split; [| split]].
  - intros H. apply Q.min_glb_lt; [exact H |].
    pose proof (Q.le_max_l 2 (inject_Z (Math_round (years / 2)))). lra.
  - intros H. unfold Qmin, GenericMinMax.gmin.
    destruct (years ?= Qmax 2 (inject_Z (Math_round (years / 2)))) eqn:E;
      try reflexivity.
    apply Qgt_alt in E.
    pose proof (Q.le_max_l 2 (inject_Z (Math_round (years / 2)))). lra.
  - intros H.
    pose proof (Math_round_nearest (years / 2)) as [_ Hr].
    assert (Hh : years / 2 == years * (1 # 2)) by field.
    set (m := inject_Z (Math_round (years / 2))) in *.
    split.
    + apply Q.min_glb; [exact H | apply Q.le_max_l].
    + destruct (Q.min_spec years (Qmax 2 m)) as [[Hlt E] | [Hle E]].
      * destruct (Q.max_spec 2 m) as [[Hm Em] | [Hm Em]].
        -- exfalso. rewrite Em in Hlt. lra.
        -- exfalso. rewrite Em in Hlt. lra.
      * destruct (Q.max_spec 2 m) as [[Hm Em] | [Hm Em]].
        -- exists (Math_round (years / 2)). rewrite E, Em. reflexivity.
        -- exists 2%Z. rewrite E, Em. reflexivity.
Qed.

Lemma midCallYears_range_witness :
  (1 <= 2 /\ 2 <= 10)
  /\ midCallYears 1 = 1 /\ 2 <= midCallYears 10.
Proof.
  assert (H1 : 1 <= 2) by discriminate.
  assert (H2 : 2 <= 10) by discriminate.
  split; [split; assumption |].
  split.
  - exact (proj1 (proj2 (proj2 (midCallYears_range 1))) H1).
  - exact (proj1 (proj2 (proj2 (proj2 (midCallYears_range 10))) H2)).
Defined.

(** ** The chart *)

Lemma gridPoints_nth (face couponRate ytm years : Q) (freq : Z)
    (callable : bool) (i : nat) (d : Point) :
  (i < 41)%nat ->
  nth i (gridPoints face couponRate ytm years freq callable) d
  = gridPoint face couponRate ytm years freq callable (offsetAt i).
Proof.
  intros Hi. rewrite gridPoints_map.
  rewrite (nth_indep _ d
             (gridPoint face couponRate ytm years freq callable (offsetAt 0)))
    by (rewrite length_map, length_seq; exact Hi).
  rewrite (map_nth (fun i => gridPoint face couponRate ytm years freq callable
                                       (offsetAt i)) (seq 0 41) 0%nat).
  rewrite seq_nth by exact Hi. reflexivity.
Qed.

Lemma gridPoints_Forall (P : Point -> Prop)
    (face couponRate ytm years : Q) (freq : Z) (callable : bool) :
  (forall bps, P (gridPoint face couponRate ytm years freq callable bps)) ->
  Forall P (gridPoints face couponRate ytm years freq callable).
Proof.
  intros H. rewrite gridPoints_map. apply Forall_map, Forall_forall.
  intros i _. apply H.
Qed.

(** A rate of at least -0.99 a year leaves the discount factor positive. *)
Lemma discount_factor_pos (rate : Q) (freq : Z) :
  (1 <= freq)%Z -> - (99 # 100) <= rate -> 0 < 1 + rate / inject_Z freq.
Proof.
  intros Hfreq Hrate. pose proof (inject_Z_pos freq Hfreq) as Hf.
  assert (- (99 # 100) <= rate / inject_Z freq)
    by (apply Qle_shift_div_l; [lra | nra]).
  lra.
Qed.

Lemma ytwGrid_le_yield (face couponRate ytm years : Q) (freq : Z)
    (callable : bool) (bps : Z) :
  ytwGrid face couponRate ytm years freq callable bps <= gridYield ytm bps.
Proof.
  unfold ytwGrid. destruct callable.
  - rewrite yieldToWorstApprox_callable. unfold yieldToWorst_spec.
    apply Q.le_min_l.
  - apply Qle_refl.
Qed.

Lemma coupon_nonneg (face couponRate : Q) (freq : Z) :
  0 <= face -> 0 <= couponRate -> (1 <= freq)%Z ->
  0 <= couponRate * face / inject_Z freq.
Proof.
  intros Hface Hcoupon Hfreq. pose proof (inject_Z_pos freq Hfreq) as Hf.
  apply Qle_shift_div_l; [lra | nra].
Qed.

Lemma percent_nonneg (pct : Q) : 0 <= pct -> 0 <= pct / 100.
Proof. intros H. apply Qle_shift_div_l; [reflexivity | lra]. Qed.

(** X17.  For [face > 0], a coupon rate [>= 0] and [freq >= 1], whatever
    the yield and the maturity entered, every point of the chart has a
    positive [Price] and a positive ["Price (Callable est)"], which is
    never below the [Price] of the same point. *)
Theorem chart_prices_positive (s : State) :
  0 < s_face s -> 0 <= couponPct s -> (1 <= s_freq s)%Z ->
  Forall (fun pt => 0 < Price pt /\ Price pt <= PriceCallable pt)
         (points (computed s)).
Proof.
  intros Hface Hcoupon Hfreq. cbn [computed points].
  pose proof (percent_nonneg _ Hcoupon) as Hrate.
  pose proof (coupon_nonneg _ _ _ (Qlt_le_weak _ _ Hface) Hrate Hfreq) as Hc.
  apply gridPoints_Forall. intros bps.
  unfold gridPoint. cbn [Price PriceCallable].
  pose proof (gridYield_floor (ytmPct s / 100) bps) as Hy.
  pose proof (discount_factor_pos _ _ Hfreq
                (ytwGrid_lower_bound (s_face s) (couponPct s / 100)
                   (ytmPct s / 100) (s_years s) (s_freq s) (s_callable s) bps))
    as Hw.
  split.
  - rewrite priceBond_pvAt. apply pvAt_pos; [exact Hc | exact Hface |].
    apply discount_factor_pos; [exact Hfreq | lra].
  - destruct (s_callable s) eqn:Hcb; [| apply Qle_refl].
    rewrite !priceBond_pvAt.
    apply pvAt_nonincreasing; [exact Hc | lra | exact Hw |].
    pose proof (inject_Z_pos _ Hfreq) as Hf.
    pose proof (ytwGrid_le_yield (s_face s) (couponPct s / 100)
                  (ytmPct s / 100) (s_years s) (s_freq s) true bps) as Hle.
    unfold Qdiv. apply Qmult_le_compat_r; [exact Hle |].
    apply Qlt_le_weak, Qinv_lt_0_compat. lra.
Qed.

Lemma chart_prices_positive_witness :
  let s := mkState 1000 5 (-300) 10 2 "corporate" true false false false in
  (0 < s_face s /\ 0 <= couponPct s /\ (1 <= s_freq s)%Z)
  /\ Forall (fun pt => 0 < Price pt /\ Price pt <= PriceCallable pt)
            (points (computed s)).
Proof.
  intros s.
  assert (Hface : 0 < s_face s) by reflexivity.
  assert (Hcoupon : 0 <= couponPct s) by discriminate.
  assert (Hfreq : (1 <= s_freq s)%Z) by (cbn; lia).
  split; [repeat split; assumption |].
  exact (chart_prices_positive s Hface Hcoupon Hfreq).
Defined.

(** X18.  For [face > 0], a coupon rate [>= 0] and [freq >= 1] the [Price]
    series never rises along the chart, and with [ytm >= 0.0201], where no
    sample is floored, it falls strictly from each point to the next. *)
Theorem chart_price_curve_falls (s : State) (d : Point) :
  0 < s_face s -> 0 <= couponPct s -> (1 <= s_freq s)%Z ->
  let pts := points (computed s) in
  (forall i j, (i <= j < 41)%nat -> Price (nth j pts d) <= Price (nth i pts d))
  /\ (201 # 10000 <= ytmPct s / 100 ->
      forall i j, (i < j < 41)%nat -> Price (nth j pts d) < Price (nth i pts d)).
Proof.
  intros Hface Hcoupon Hfreq pts. subst pts. cbn [computed points].
  pose proof (percent_nonneg _ Hcoupon) as Hrate.
  pose proof (coupon_nonneg _ _ _ (Qlt_le_weak _ _ Hface) Hrate Hfreq) as Hc.
  pose proof (inject_Z_pos _ Hfreq) as Hf.
  assert (Hinv : 0 < / inject_Z (s_freq s)) by (apply Qinv_lt_0_compat; lra).
  split.
  - intros i j Hij. rewrite !gridPoints_nth by lia.
    unfold gridPoint. cbn [Price]. rewrite !priceBond_pvAt.
    pose proof (gridYield_floor (ytmPct s / 100) (offsetAt i)) as Hy.
    apply pvAt_nonincreasing; [exact Hc | lra | |].
    + apply discount_factor_pos; [exact Hfreq | lra].
    + unfold Qdiv. apply Qmult_le_compat_r; [| lra].
      apply gridYield_monotone. lia.
  - intros Hytm i j Hij. rewrite !gridPoints_nth by lia.
    unfold gridPoint. cbn [Price]. rewrite !priceBond_pvAt.
    pose proof (gridYield_floor (ytmPct s / 100) (offsetAt i)) as Hy.
    destruct (periods_succ (s_years s) (s_freq s)) as [k ->].
    apply pvAt_decreasing; [exact Hc | exact Hface | |].
    + apply discount_factor_pos; [exact Hfreq | lra].
    + unfold Qdiv. apply Qmult_lt_compat_r; [exact Hinv |].
      rewrite !gridYield_unfloored by exact Hytm.
      assert (inject_Z (Z.of_nat i) < inject_Z (Z.of_nat j))
        by (rewrite <- Zlt_Qlt; lia).
      lra.
Qed.

Lemma chart_price_curve_falls_witness :
  let s := mkState 1000 5 5 10 2 "corporate" false false false false in
  let pts := points (computed s) in
  (0 < s_face s /\ 0 <= couponPct s /\ (1 <= s_freq s)%Z
   /\ 201 # 10000 <= ytmPct s / 100 /\ (0 < 40 < 41)%nat)
  /\ Price (nth 40 pts (mkPoint 0 0 0)) < Price (nth 0 pts (mkPoint 0 0 0)).
Proof.
  intros s pts.
  assert (Hface : 0 < s_face s) by reflexivity.
  assert (Hcoupon : 0 <= couponPct s) by discriminate.
  assert (Hfreq : (1 <= s_freq s)%Z) by (cbn; lia).
  assert (Hytm : 201 # 10000 <= ytmPct s / 100) by discriminate.
  assert (Hij : (0 < 40 < 41)%nat) by lia.
  split; [repeat split; try assumption; lia |].
  exact (proj2 (chart_price_curve_falls s (mkPoint 0 0 0) Hface Hcoupon Hfreq)
               Hytm 0%nat 40%nat Hij).
Defined.

Lemma gridYield_centre (ytm : Q) :
  (1 # 10000 <= ytm -> gridYield ytm (offsetAt 20) == ytm)
  /\ (ytm <= 1 # 10000 -> gridYield ytm (offsetAt 20) == 1 # 10000).
Proof.
  unfold gridYield, Math_max.
  assert (E : ytm + inject_Z (offsetAt 20) / 10000 == ytm)
    by (change (inject_Z (offsetAt 20)) with 0; field).
  rewrite E. split; intros H.
  - apply Q.max_r. exact H.
  - apply Q.max_l. exact H.
Qed.

(** X19.  The middle point of the chart (offset 0) repeats the headline
    figures as long as the yield entered is at least 0.0001: its [yld] is
    the yield in percent and its [Price] is the model price.  Below that
    the middle point is floored too and shows 0.01 percent. *)
Theorem chart_centre_is_headline (s : State) (d : Point) :
  let pt := nth 20 (points (computed s)) d in
  (1 # 10000 <= ytmPct s / 100 ->
   yld pt == ytmPct s /\ Price pt == price (computed s))
  /\ (ytmPct s / 100 <= 1 # 10000 -> yld pt == 1 # 100).
Proof.
  intros pt. subst pt. cbn [computed points price].
  rewrite gridPoints_nth by lia. unfold gridPoint. cbn [yld Price].
  destruct (gridYield_centre (ytmPct s / 100)) as [Hin Hout].
  split; intros H.
  - specialize (Hin H). split.
    + rewrite Hin. field.
    + rewrite !priceBond_pvAt. apply pvAt_rate_ext. rewrite Hin. reflexivity.
  - rewrite (Hout H). reflexivity.
Qed.

Lemma chart_centre_is_headline_witness :
  let s := mkState 1000 5 4 10 2 "corporate" false false false false in
  1 # 10000 <= ytmPct s / 100
  /\ Price (nth 20 (points (computed s)) (mkPoint 0 0 0)) == price (computed s).
Proof.
  intros s.
  assert (H : 1 # 10000 <= ytmPct s / 100) by discriminate.
  split; [exact H |].
  exact (proj2 (proj1 (chart_centre_is_headline s (mkPoint 0 0 0)) H)).
Defined.

(** ** Headline figures *)

(** X20.  For [face > 0], [freq >= 1] and a yield [>= 0] the current yield
    [couponRate * face / price] equals the coupon rate when the coupon rate
    equals the yield, is below the coupon rate when the coupon rate exceeds
    the yield, and above a positive coupon rate that is below the yield. *)
Theorem current_yield_vs_coupon (s : State) :
  0 < s_face s -> (1 <= s_freq s)%Z -> 0 <= ytmPct s ->
  let couponRate := couponPct s / 100 in
  let ytm := ytmPct s / 100 in
  (couponRate == ytm -> cy (computed s) == couponRate)
  /\ (ytm < couponRate -> cy (computed s) < couponRate)
  /\ (0 < couponRate -> couponRate < ytm -> couponRate < cy (computed s)).
Proof.
  intros Hface Hfreq Hpct couponRate ytm.
  pose proof (percent_nonneg _ Hpct) as Hytm. fold ytm in Hytm.
  pose proof (inject_Z_pos _ Hfreq) as Hf.
  assert (Hr : 0 <= ytm / inject_Z (s_freq s)) by (apply Qle_shift_div_l; lra).
  destruct (coupon_vs_interest (s_face s) couponRate ytm (s_freq s) Hface Hfreq)
    as [Hup Hdown].
  cbn [computed cy]. fold couponRate ytm.
  set (P := priceBond (baseArgs (s_face s) couponRate ytm (s_years s) (s_freq s))).
  assert (EP : P = pvAt (couponRate * s_face s / inject_Z (s_freq s)) (s_face s)
                        (ytm / inject_Z (s_freq s))
                        (Z.to_nat (periods (s_years s) (s_freq s))))
    by apply priceBond_pvAt.
  destruct (periods_succ (s_years s) (s_freq s)) as [k Hk]. rewrite Hk in EP.
  split; [| split].
  - intros Heq.
    assert (HP : P == s_face s).
    { rewrite EP.
      rewrite (pvAt_coupon_ext _ (ytm / inject_Z (s_freq s) * s_face s)).
      - apply pvAt_par. exact Hr.
      - rewrite Heq. field. lra. }
    rewrite HP. field. lra.
  - intros Hlt.
    assert (HP : s_face s < P)
      by (rewrite EP; apply pvAt_above_redemption; [lra | auto]).
    apply Qlt_shift_div_r; [lra | nra].
  - intros Hpos Hlt.
    assert (HP : P < s_face s)
      by (rewrite EP; apply pvAt_below_redemption; [lra | auto]).
    assert (HP0 : 0 < P).
    { rewrite EP. apply pvAt_pos; [| exact Hface | lra].
      apply coupon_nonneg; [lra | lra | exact Hfreq]. }
    apply Qlt_shift_div_l; [exact HP0 | nra].
Qed.

Lemma current_yield_vs_coupon_witness :
  let s := mkState 1000 5 4 10 2 "corporate" false false false false in
  (0 < s_face s /\ (1 <= s_freq s)%Z /\ 0 <= ytmPct s
   /\ ytmPct s / 100 < couponPct s / 100)
  /\ cy (computed s) < couponPct s / 100.
Proof.
  intros s.
  assert (Hface : 0 < s_face s) by reflexivity.
  assert (Hfreq : (1 <= s_freq s)%Z) by (cbn; lia).
  assert (Hytm : 0 <= ytmPct s) by discriminate.
  assert (Hlt : ytmPct s / 100 < couponPct s / 100) by reflexivity.
  split; [repeat split; assumption |].
  exact (proj1 (proj2 (current_yield_vs_coupon s Hface Hfreq Hytm)) Hlt).
Defined.

(** ** Memoisation *)

(** X21.  The dependency list of [useMemo] is complete: after any sequence
    of renders the memo shows what the function computes from the current
    state, and two states that agree on [face], [couponPct], [ytmPct],
    [years], [freq] and [callable], whatever their bond type and
    provisions, show the same value. *)
Theorem memo_never_stale (history : list State) (s : State) :
  memoValue (render (renders history) s) = computed s
  /\ forall s' : State,
       depsOf s' = depsOf s ->
       memoValue (render (renders (history ++ [s])) s') = computed s.
Proof.
  split.
  - apply render_value, renders_ok.
  - intros s' Hd.
    destruct (render_value (renders (history ++ [s])) s' (renders_ok _))
      as [_ ->].
    apply computed_deps. exact Hd.
Qed.

Lemma memo_never_stale_witness :
  let s := mkState 1000 5 4 10 2 "corporate" true false false false in
  let s' := mkState 1000 5 4 10 2 "muni" true true false true in
  depsOf s' = depsOf s
  /\ memoValue (render (renders ([] ++ [s])) s') = computed s.
Proof.
  intros s s'.
  assert (H : depsOf s' = depsOf s) by reflexivity.
  split; [exact H |].
  exact (proj2 (memo_never_stale [] s) s' H).
Defined.
